(** * LorenzMachine.py: the wheel and keystream engine

    A shallow embedding of the classes [Wheel], [WheelSet], [MotorWheelSet]
    and [LorenzMachine] of [LorenzMachine.py], and the properties of the
    engine proved over it.

    Python objects are mutable and are passed by reference: a wheel placed in
    a bank is the very object its creator holds. The embedding therefore
    keeps every [Wheel] object in a store (the heap), banks hold references
    into it, and every method is a computation that threads the heap and may
    raise a Python exception.  An exception does not roll the heap back. *)

From Stdlib Require Import ZArith Lia String Ascii DecimalString DecimalPos DecimalZ.
From stdpp Require Import base tactics option numbers list.

Local Open Scope string_scope.
Local Open Scope Z_scope.

(** ** Exceptions and the heap monad *)

(** The exceptions the engine can raise. *)
Inductive exn : Type :=
  | ZeroDivisionError   (* [x % 0] *)
  | IndexError          (* sequence index out of range *)
  | ValueError          (* [int(s, base=2)] on an invalid literal *)
  | AttributeError.     (* method looked up on an object that lacks it *)

Inductive result (A : Type) : Type :=
  | Ok (a : A)
  | Raise (e : exn).
Arguments Ok {A} a.
Arguments Raise {A} e.

(** class Wheel: the four attributes set by [__init__].  [wheel_data]
    holds integers; sizes and positions are unbounded Python integers. *)
Record Wheel : Type := mkWheel {
  wheel_name : string;
  wheel_data : list Z;
  wheel_size : Z;
  current_position : Z
}.

(** A reference to an object.  The heap stores the [Wheel] objects in
    allocation order; a reference that the heap does not hold stands for an
    object that is not a [Wheel], on which every wheel method is missing. *)
Abbreviation loc := nat (only parsing).
Abbreviation heap := (list Wheel) (only parsing).

Definition M (A : Type) : Type := heap -> result A * heap.

Definition ret {A} (a : A) : M A := fun h => (Ok a, h).
Definition raise {A} (e : exn) : M A := fun h => (Raise e, h).
Definition bind {A B} (c : M A) (k : A -> M B) : M B :=
  fun h => match c h with
           | (Ok a, h') => k a h'
           | (Raise e, h') => (Raise e, h')
           end.
Definition lift {A} (r : result A) : M A := fun h => (r, h).

Declare Scope py_scope.
Delimit Scope py_scope with py.
Notation "x <- c ;; k" := (bind c (fun x => k))
  (at level 100, c at next level, right associativity) : py_scope.
Notation "c ;;; k" := (bind c (fun _ => k))
  (at level 100, right associativity) : py_scope.
Local Open Scope py_scope.

(** [for x in xs: f(x)] *)
Fixpoint for_each {A} (f : A -> M unit) (xs : list A) : M unit :=
  match xs with
  | [] => ret tt
  | x :: xs' => f x ;;; for_each f xs'
  end.

(** [[f(x) for x in xs]] *)
Fixpoint comprehension {A B} (f : A -> M B) (xs : list A) : M (list B) :=
  match xs with
  | [] => ret []
  | x :: xs' => y <- f x ;; ys <- comprehension f xs' ;; ret (y :: ys)
  end.

(** ** Python primitives *)

(** [a % b] on integers: the sign of the result follows the divisor, as
    [Z.modulo] does; a zero divisor raises. *)
Definition py_mod (a b : Z) : result Z :=
  if b =? 0 then Raise ZeroDivisionError else Ok (a mod b).

(** [xs[i]] on a list or a tuple: a negative index counts from the end. *)
Definition py_getitem {A} (xs : list A) (i : Z) : result A :=
  let n := Z.of_nat (length xs) in
  let j := if i <? 0 then i + n else i in
  if j <? 0 then Raise IndexError
  else match xs !! Z.to_nat j with
       | Some x => Ok x
       | None => Raise IndexError
       end.

(** [str(i)] of an integer: its decimal digits, with a leading minus sign
    when it is negative. *)
Definition py_str (i : Z) : string := NilZero.string_of_int (Z.to_int i).

(** [''.join(ss)] *)
Definition py_join (ss : list string) : string := fold_right String.append EmptyString ss.

(** The value of a run of binary digits read from the most significant one
    ([acc] is the value of the digits already read). *)
Fixpoint bin_digits (s : string) (acc : Z) : option Z :=
  match s with
  | EmptyString => Some acc
  | String c s' =>
      if Ascii.eqb c "0" then bin_digits s' (2 * acc)
      else if Ascii.eqb c "1" then bin_digits s' (2 * acc + 1)
      else None
  end.

(** [int('0b' + body, base=2)], for a [body] made of the characters of
    [str] of integers (a minus sign and decimal digits): the literal is
    valid when [body] is a non-empty run of the digits 0 and 1. *)
Definition py_int_0b (body : string) : result Z :=
  match body with
  | EmptyString => Raise ValueError
  | _ => match bin_digits body 0 with
         | Some v => Ok v
         | None => Raise ValueError
         end
  end.

(** The binary digits of a positive number, most significant first. *)
Fixpoint bin_of_pos (p : positive) (acc : string) : string :=
  match p with
  | xH => String "1" acc
  | xO p' => bin_of_pos p' (String "0" acc)
  | xI p' => bin_of_pos p' (String "1" acc)
  end.

Fixpoint zeros (n : nat) : string :=
  match n with
  | O => EmptyString
  | S n' => String "0" (zeros n')
  end.

(** ['{0:05b}'.format(n)]: binary digits, zero-padded after the sign to a
    total width of at least five characters. *)
Definition format_05b (n : Z) : string :=
  match n with
  | Z0 => "00000"
  | Zpos p => let d := bin_of_pos p EmptyString in (zeros (5 - String.length d) ++ d)%string
  | Zneg p => let d := bin_of_pos p EmptyString in ("-" ++ zeros (4 - String.length d) ++ d)%string
  end.

(** ** class Wheel *)

(** Attribute access on the object behind a reference. *)
Definition deref (self : loc) : M Wheel :=
  fun h => match h !! self with
           | Some w => (Ok w, h)
           | None => (Raise AttributeError, h)
           end.

(** [self.current_position = p] *)
Definition set_current_position (w : Wheel) (p : Z) : Wheel :=
  {| wheel_name := wheel_name w;
     wheel_data := wheel_data w;
     wheel_size := wheel_size w;
     current_position := p |}.

Definition assign_current_position (self : loc) (p : Z) : M unit :=
  fun h => match h !! self with
           | Some w => (Ok tt, <[self := set_current_position w p]> h)
           | None => (Raise AttributeError, h)
           end.

(** [Wheel.__init__]: a new object with the four attributes as given
    ([wheel_name] is already a string here, so [str] is the identity). *)
Definition Wheel_init (wheel_name : string) (wheel_size initial_position : Z)
    (wheel_data : list Z) : M loc :=
  fun h => (Ok (length h),
            (h ++ [mkWheel wheel_name wheel_data wheel_size initial_position])%list).

(** [Wheel.advance] *)
Definition Wheel_advance (self : loc) : M unit :=
  w <- deref self ;;
  p <- lift (py_mod (current_position w + 1) (wheel_size w)) ;;
  assign_current_position self p.

(** [Wheel.get_current_value] *)
Definition Wheel_get_current_value (self : loc) : M Z :=
  w <- deref self ;;
  lift (py_getitem (wheel_data w) (current_position w)).

(** [Wheel.get_current_position] *)
Definition Wheel_get_current_position (self : loc) : M Z :=
  w <- deref self ;; ret (current_position w).

(** ** class WheelSet and class MotorWheelSet *)

(** The class of a bank object decides which [advance] a call dispatches
    to, and whether [is_active] exists. *)
Inductive bank_class : Type := PlainBank | MotorBank.

Record WheelSet : Type := mkWheelSet {
  bank_cls : bank_class;
  wheels : list loc          (* the tuple [self.wheels] *)
}.

(** [WheelSet.__init__] and [MotorWheelSet.__init__]: the tuple of wheels
    is stored as given. *)
Definition WheelSet_init (ws : list loc) : M WheelSet :=
  ret (mkWheelSet PlainBank ws).
Definition MotorWheelSet_init (ws : list loc) : M WheelSet :=
  ret (mkWheelSet MotorBank ws).

(** [WheelSet.advance] *)
Definition WheelSet_advance (ws : list loc) : M unit :=
  for_each Wheel_advance ws.

(** [WheelSet.get_current_value], inherited by [MotorWheelSet]: the
    current values in bank order, reversed, written as one binary literal. *)
Definition WheelSet_get_current_value (ws : list loc) : M Z :=
  res <- comprehension Wheel_get_current_value ws ;;
  let res := rev res in
  lift (py_int_0b (py_join (map py_str res))).

(** [MotorWheelSet.advance] *)
Definition MotorWheelSet_advance (ws : list loc) : M unit :=
  w0 <- lift (py_getitem ws 0) ;;
  Wheel_advance w0 ;;;
  w0 <- lift (py_getitem ws 0) ;;
  v <- Wheel_get_current_value w0 ;;
  if v =? 1 then
    w1 <- lift (py_getitem ws 1) ;;
    Wheel_advance w1
  else ret tt.

(** [MotorWheelSet.is_active] *)
Definition MotorWheelSet_is_active (ws : list loc) : M bool :=
  w1 <- lift (py_getitem ws 1) ;;
  v <- Wheel_get_current_value w1 ;;
  ret (if v =? 1 then true else false).

(** Method calls on a bank object, resolved by its class. *)
Definition advance (b : WheelSet) : M unit :=
  match bank_cls b with
  | PlainBank => WheelSet_advance (wheels b)
  | MotorBank => MotorWheelSet_advance (wheels b)
  end.

Definition get_current_value (b : WheelSet) : M Z :=
  WheelSet_get_current_value (wheels b).

Definition is_active (b : WheelSet) : M bool :=
  match bank_cls b with
  | PlainBank => raise AttributeError
  | MotorBank => MotorWheelSet_is_active (wheels b)
  end.

(** ** class LorenzMachine *)

Record LorenzMachine : Type := mkLorenzMachine {
  k_set : WheelSet;
  s_set : WheelSet;
  m_set : WheelSet
}.

(** [LorenzMachine.__init__] *)
Definition LorenzMachine_init (k s m : WheelSet) : M LorenzMachine :=
  ret (mkLorenzMachine k s m).

(** [LorenzMachine.advance] *)
Definition LorenzMachine_advance (self : LorenzMachine) : M unit :=
  advance (k_set self) ;;;
  advance (m_set self) ;;;
  a <- is_active (m_set self) ;;
  if a then advance (s_set self) else ret tt.

(** [LorenzMachine.encrypt_character] *)
Definition encrypt_character (self : LorenzMachine) (char : Z) : M Z :=
  k <- get_current_value (k_set self) ;;
  s <- get_current_value (s_set self) ;;
  let result := Z.lxor (Z.lxor char k) s in
  LorenzMachine_advance self ;;;
  ret result.

(** The list [encrypted_message] that [encrypt_message] builds first. *)
Definition encrypted_message (self : LorenzMachine) (message : list Z) : M (list Z) :=
  comprehension (encrypt_character self) message.

(** [LorenzMachine.encrypt_message]: the binary rendering of that list. *)
Definition encrypt_message (self : LorenzMachine) (message : list Z) : M string :=
  nums <- encrypted_message self message ;;
  ret ("0b" ++ py_join (map format_05b nums))%string.

(** ** Iteration, valid states and the reference notions of the properties *)

(** [n] successive calls of a method that returns nothing. *)
Fixpoint repeat_m (n : nat) (c : M unit) : M unit :=
  match n with
  | O => ret tt
  | S n' => c ;;; repeat_m n' c
  end.

(** The wheel that one successful [advance] leaves behind. *)
Definition advanced (w : Wheel) : Wheel :=
  set_current_position w ((current_position w + 1) mod wheel_size w).

(** The data model's wheel invariant: a positive size, a pattern of that
    length made of the bits 0 and 1, and a position inside the pattern. *)
Definition is_bit (b : Z) : bool := (b =? 0) || (b =? 1).

Definition valid_wheel (w : Wheel) : bool :=
  (1 <=? wheel_size w)
  && (Z.of_nat (length (wheel_data w)) =? wheel_size w)
  && forallb is_bit (wheel_data w)
  && (0 <=? current_position w)
  && (current_position w <? wheel_size w).

(** What a read needs of a wheel: a pattern of bits and a position that
    indexes it (a negative position counts from the end, as Python does). *)
Definition readable_wheel (w : Wheel) : bool :=
  forallb is_bit (wheel_data w)
  && (- Z.of_nat (length (wheel_data w)) <=? current_position w)
  && (current_position w <? Z.of_nat (length (wheel_data w))).

Definition readable_ref (h : heap) (l : loc) : bool :=
  match h !! l with
  | Some w => readable_wheel w
  | None => false
  end.

Definition readable_bank (h : heap) (ws : list loc) : bool :=
  forallb (readable_ref h) ws.

Definition valid_ref (h : heap) (l : loc) : bool :=
  match h !! l with
  | Some w => valid_wheel w
  | None => false
  end.

Definition valid_bank (h : heap) (ws : list loc) : bool := forallb (valid_ref h) ws.

(** Every wheel reference a machine holds, bank after bank. *)
Definition machine_refs (m : LorenzMachine) : list loc :=
  (wheels (k_set m) ++ wheels (s_set m) ++ wheels (m_set m))%list.

Definition is_plain (b : WheelSet) : bool :=
  match bank_cls b with PlainBank => true | MotorBank => false end.
Definition is_motor (b : WheelSet) : bool :=
  match bank_cls b with PlainBank => false | MotorBank => true end.

(** A valid machine state: K and S are non-empty plain banks, the motor bank
    is a [MotorWheelSet] with its two wheels, every wheel is valid, and no
    wheel object is held twice (each bank owns its wheels exclusively). *)
Definition valid_machine (m : LorenzMachine) (h : heap) : bool :=
  is_plain (k_set m) && is_plain (s_set m) && is_motor (m_set m)
  && (1 <=? length (wheels (k_set m)))%nat
  && (1 <=? length (wheels (s_set m)))%nat
  && (2 <=? length (wheels (m_set m)))%nat
  && valid_bank h (machine_refs m)
  && bool_decide (NoDup (machine_refs m)).

(** A valid motor bank on its own: two distinct valid wheels. *)
Definition valid_motor (ws : list loc) (h : heap) : bool :=
  match ws with
  | l0 :: l1 :: _ => valid_ref h l0 && valid_ref h l1 && negb (l0 =? l1)%nat
  | _ => false
  end.

(** Following the spec's words for [aggregateValue]: the bits in bank
    order read as a little-endian number, the first bit the least
    significant. *)
Fixpoint spec_aggregate (bits : list Z) : Z :=
  match bits with
  | [] => 0
  | b :: bs => b + 2 * spec_aggregate bs
  end.

(** Following the spec's words for [keystreamValue]: the K-bank aggregate
    XOR the S-bank aggregate, read without advancing. *)
Definition spec_keystreamValue (m : LorenzMachine) : M Z :=
  k <- get_current_value (k_set m) ;;
  s <- get_current_value (s_set m) ;;
  ret (Z.lxor k s).

(** A computation changes no object outside [L] and allocates nothing. *)
Definition frames {A} (L : list loc) (c : M A) : Prop :=
  forall h, length (c h).2 = length h /\
            forall l, l ∉ L -> (c h).2 !! l = h !! l.

(** Two wheels with the same pattern, size and position (the name, used
    only in diagnostics, may differ). *)
Definition same_wheel (w1 w2 : Wheel) : bool :=
  bool_decide (wheel_data w1 = wheel_data w2)
  && (wheel_size w1 =? wheel_size w2)
  && (current_position w1 =? current_position w2).

Definition same_ref (h1 h2 : heap) (p : loc * loc) : bool :=
  match h1 !! p.1, h2 !! p.2 with
  | Some w1, Some w2 => same_wheel w1 w2
  | None, None => true
  | _, _ => false
  end.

(** The pairs relate references one to one: the two engines share wheels
    between and inside their banks in the same way (not at all, for valid
    machines). *)
Definition one_to_one (ps : list (loc * loc)) : bool :=
  forallb (fun p => forallb (fun q =>
    bool_decide (p.1 = q.1 <-> p.2 = q.2)) ps) ps.

Definition same_class (c1 c2 : bank_class) : bool :=
  match c1, c2 with
  | PlainBank, PlainBank | MotorBank, MotorBank => true
  | _, _ => false
  end.

Definition same_bank_shape (b1 b2 : WheelSet) : bool :=
  same_class (bank_cls b1) (bank_cls b2)
  && (length (wheels b1) =? length (wheels b2))%nat.

(** The wheel references of two machines, paired position by position. *)
Definition paired_refs (m1 m2 : LorenzMachine) : list (loc * loc) :=
  zip (machine_refs m1) (machine_refs m2).

(** Two engines constructed identically: banks of the same class and
    length, corresponding wheels with the same pattern, size and position,
    and the same sharing of wheel objects. *)
Definition same_config (m1 : LorenzMachine) (h1 : heap)
    (m2 : LorenzMachine) (h2 : heap) : bool :=
  same_bank_shape (k_set m1) (k_set m2)
  && same_bank_shape (s_set m1) (s_set m2)
  && same_bank_shape (m_set m1) (m_set m2)
  && one_to_one (paired_refs m1 m2)
  && forallb (same_ref h1 h2) (paired_refs m1 m2).

(** The heaps agree, up to wheel names, on every related pair of references. *)
Definition heap_rel (ps : list (loc * loc)) (h1 h2 : heap) : Prop :=
  forall p, p ∈ ps -> same_ref h1 h2 p = true.

(** Results related by [R]: two values related by [R], or the same
    exception. *)
Definition result_rel {A B} (R : A -> B -> Prop)
    (r1 : result A) (r2 : result B) : Prop :=
  match r1, r2 with
  | Ok a, Ok b => R a b
  | Raise e1, Raise e2 => e1 = e2
  | _, _ => False
  end.

(** Two computations that, from related heaps, return related results (or
    raise the same exception) and leave related heaps. *)
Definition sim {A B} (ps : list (loc * loc)) (R : A -> B -> Prop)
    (c1 : M A) (c2 : M B) : Prop :=
  forall h1 h2, heap_rel ps h1 h2 ->
    result_rel R (c1 h1).1 (c2 h2).1 /\ heap_rel ps (c1 h1).2 (c2 h2).2.

(** Banks of the same class whose wheels are related position by position. *)
Definition related_banks (ps : list (loc * loc)) (b1 b2 : WheelSet) : Prop :=
  bank_cls b1 = bank_cls b2
  /\ Forall2 (fun a b => (a, b) ∈ ps) (wheels b1) (wheels b2).

(** The configuration of the spec's end-to-end scenario. *)
Definition demo_heap : heap :=
  [ mkWheel "k1" [1;0;1] 3 0; mkWheel "k2" [0;1;1] 3 0;
    mkWheel "s1" [1;1] 2 0; mkWheel "s2" [0;1] 2 0;
    mkWheel "m1" [1;0] 2 0; mkWheel "m2" [1;1] 2 0 ].

Definition demo_machine : LorenzMachine :=
  mkLorenzMachine (mkWheelSet PlainBank [0;1]%nat)
                  (mkWheelSet PlainBank [2;3]%nat)
                  (mkWheelSet MotorBank [4;5]%nat).

(** ** Further notions, for the properties beyond the claims *)

(** A computation keeps every wheel object in place with its name, pattern
    and size: only positions may differ afterwards. *)
Definition keeps_wheels {A} (c : M A) : Prop :=
  forall h, length (c h).2 = length h /\
    forall l w, h !! l = Some w ->
      exists w', (c h).2 !! l = Some w'
                 /\ wheel_name w' = wheel_name w
                 /\ wheel_data w' = wheel_data w
                 /\ wheel_size w' = wheel_size w.

(** [n] is a multiple of the size of every wheel of the bank. *)
Definition bank_period (h : heap) (ws : list loc) (n : nat) : bool :=
  forallb (fun l => match h !! l with
                    | Some w => Z.of_nat n mod wheel_size w =? 0
                    | None => false
                    end) ws.

(** Patterns that hold one value only. *)
Definition all_zero (data : list Z) : bool := forallb (Z.eqb 0) data.
Definition all_one (data : list Z) : bool := forallb (Z.eqb 1) data.

(** A string made of the digits 0 and 1 only. *)
Fixpoint binary_string (s : string) : bool :=
  match s with
  | EmptyString => true
  | String c s' => (Ascii.eqb c "0" || Ascii.eqb c "1") && binary_string s'
  end.

(** A five-bit symbol code, as the Baudot encoder produces them. *)
Definition five_bit (c : Z) : bool := (0 <=? c) && (c <? 32).

(** ** Diagnostics *)







(** ** The script that drives the engine *)

(** Line 153: the Baudot codes written as one binary string, rendered as
    [encrypt_message] renders its result. *)
Definition baudot_text_binary (baudot_int_list : list Z) : string :=
  ("0b" ++ py_join (map format_05b baudot_int_list))%string.

(** [s[2:]] on a string: the string without its first two characters,
    empty when there are fewer. *)
Definition py_slice_from_2 (s : string) : string :=
  match s with
  | String _ (String _ r) => r
  | _ => EmptyString
  end.

(** [s[i]] on a string. *)
Definition py_str_getitem (s : string) (i : Z) : result ascii :=
  py_getitem (list_ascii_of_string s) i.

(** One turn of the loop of lines 214-215, on the running count:
    [difference += 1 if encrypted_message[2:][index] ==
    baudot_text_binary[2:][index] else 0]. *)
Definition difference_step (encrypted_message baudot_text_binary : string)
    (difference : result Z) (index : Z) : result Z :=
  match difference with
  | Raise e => Raise e
  | Ok d =>
      match py_str_getitem (py_slice_from_2 encrypted_message) index with
      | Raise e => Raise e
      | Ok a =>
          match py_str_getitem (py_slice_from_2 baudot_text_binary) index with
          | Raise e => Raise e
          | Ok b => Ok (d + (if Ascii.eqb a b then 1 else 0))
          end
      end
  end.

(** Lines 213-215: the count the script calls [difference], over
    [range(len(encrypted_message[2:]))].  (The percentage printed from it
    is a floating-point figure and is left out.) *)
Definition main_difference (encrypted_message baudot_text_binary : string)
    : result Z :=
  fold_left (difference_step encrypted_message baudot_text_binary)
    (map Z.of_nat (seq 0 (String.length (py_slice_from_2 encrypted_message))))
    (Ok 0).

(** The number of positions at which two character lists agree. *)
Fixpoint agreeing (xs ys : list ascii) : Z :=
  match xs, ys with
  | x :: xs', y :: ys' => (if Ascii.eqb x y then 1 else 0) + agreeing xs' ys'
  | _, _ => 0
  end.

(** Membership in the concatenation of the three banks. *)
Ltac solve_elem :=
  rewrite ?elem_of_app, ?elem_of_cons; tauto.

(** ** The monad *)

Lemma bind_ok {A B} (c : M A) (k : A -> M B) h a h' :
  c h = (Ok a, h') -> bind c k h = k a h'.
Proof. intros E. unfold bind. by rewrite E. Qed.

(** ** Wheel *)

Lemma Wheel_advance_unfold (l : loc) (h : heap) :
  Wheel_advance l h =
  match h !! l with
  | None => (Raise AttributeError, h)
  | Some w => if wheel_size w =? 0 then (Raise ZeroDivisionError, h)
              else (Ok tt, <[l := advanced w]> h)
  end.
Proof.
  unfold Wheel_advance, bind, deref, lift, py_mod, assign_current_position.
  destruct (h !! l) as [w|] eqn:E; [|done].
  destruct (wheel_size w =? 0); [done|]. by rewrite E.
Qed.

Lemma Wheel_advance_eq (l : loc) (h : heap) (w : Wheel) :
  h !! l = Some w -> wheel_size w <> 0 ->
  Wheel_advance l h = (Ok tt, <[l := advanced w]> h).
Proof.
  intros E Hs. rewrite Wheel_advance_unfold, E.
  by destruct (Z.eqb_spec (wheel_size w) 0).
Qed.

Lemma Wheel_get_current_value_unfold (l : loc) (h : heap) :
  Wheel_get_current_value l h =
  match h !! l with
  | None => (Raise AttributeError, h)
  | Some w => (py_getitem (wheel_data w) (current_position w), h)
  end.
Proof.
  unfold Wheel_get_current_value, bind, deref, lift.
  by destruct (h !! l) as [w|].
Qed.

Lemma set_current_position_same (w : Wheel) :
  set_current_position w (current_position w) = w.
Proof. by destruct w. Qed.

(** After [n] advances a wheel of non-zero size sits at [(p + n) mod size],
    provided it started inside its range or moved at least once. *)
Lemma Wheel_advance_repeat (l : loc) (w : Wheel) (n : nat) (h : heap) :
  h !! l = Some w -> wheel_size w <> 0 ->
  (n = 0%nat -> current_position w mod wheel_size w = current_position w) ->
  repeat_m n (Wheel_advance l) h =
  (Ok tt, <[l := set_current_position w
                   ((current_position w + Z.of_nat n) mod wheel_size w)]> h).
Proof.
  revert w h. induction n as [|n IH]; intros w h E Hs H0.
  - simpl. unfold ret. rewrite Z.add_0_r, H0 by done.
    by rewrite set_current_position_same, list_insert_id.
  - simpl. erewrite bind_ok by (by apply Wheel_advance_eq).
    assert (Hlt : (l < length h)%nat) by (by eapply lookup_lt_Some).
    rewrite (IH (advanced w)); cbn.
    + rewrite list_insert_insert_eq. do 3 f_equal.
      rewrite Zplus_mod_idemp_l. f_equal. lia.
    + by apply list_lookup_insert_eq.
    + done.
    + intros _. apply Z.mod_mod. done.
Qed.

Lemma Wheel_advance_effect (l : loc) (h : heap) (w : Wheel) :
  h !! l = Some w -> wheel_size w <> 0 ->
  exists h1, Wheel_advance l h = (Ok tt, h1)
    /\ h1 !! l = Some (advanced w)
    /\ (forall l', l' <> l -> h1 !! l' = h !! l')
    /\ length h1 = length h.
Proof.
  intros E Hs. eexists. split; [by apply Wheel_advance_eq|].
  split; [|split].
  - apply list_lookup_insert_eq. by eapply lookup_lt_Some.
  - intros l' Hne. by apply list_lookup_insert_ne.
  - apply length_insert.
Qed.

(** C8. Wheel wraparound.  For a wheel of size N >= 1 whose position lies
    in [0, N): one [advance] never fails, sets the position to
    (position + 1) mod N and changes nothing else (name, pattern and size of
    the wheel stay, and so does every other object); N advances in a row
    bring the heap, hence the wheel's position and its current value, back
    to what they were. *)
Theorem C8_wheel_wraparound (h : heap) (l : loc) (w : Wheel) :
  h !! l = Some w ->
  1 <= wheel_size w ->
  0 <= current_position w < wheel_size w ->
  (exists h1 w1,
      Wheel_advance l h = (Ok tt, h1)
      /\ h1 !! l = Some w1
      /\ current_position w1 = (current_position w + 1) mod wheel_size w
      /\ wheel_name w1 = wheel_name w
      /\ wheel_data w1 = wheel_data w
      /\ wheel_size w1 = wheel_size w
      /\ (forall l', l' <> l -> h1 !! l' = h !! l')
      /\ length h1 = length h)
  /\ (exists hN,
      repeat_m (Z.to_nat (wheel_size w)) (Wheel_advance l) h = (Ok tt, hN)
      /\ hN = h
      /\ Wheel_get_current_position l hN = (Ok (current_position w), hN)
      /\ (Wheel_get_current_value l hN).1 = (Wheel_get_current_value l h).1).
Proof.
  intros E Hs Hp. split.
  - destruct (Wheel_advance_effect l h w E) as (h1 & E1 & E2 & E3 & E4); [lia|].
    exists h1, (advanced w). by repeat split.
  - exists h. split; [|split; [done|split; [|done]]].
    + rewrite (Wheel_advance_repeat l w) by (done || lia || (intros _; apply Z.mod_small; lia)).
      rewrite Z2Nat.id by lia.
      rewrite <- (Z.mul_1_l (wheel_size w)) at 1.
      rewrite Z.mod_add by lia. rewrite Z.mod_small by lia.
      by rewrite set_current_position_same, list_insert_id.
    + unfold Wheel_get_current_position, bind, deref, ret. by rewrite E.
Qed.

Lemma C8_wheel_wraparound_witness :
  let h := [mkWheel "w" [1; 0; 1] 3 1] in
  repeat_m 3 (Wheel_advance 0%nat) h = (Ok tt, h).
Proof.
  intros h.
  destruct (C8_wheel_wraparound h 0%nat (mkWheel "w" [1; 0; 1] 3 1))
    as [_ (hN & E & -> & _)]; [reflexivity | simpl; lia | simpl; lia |].
  exact E.
Defined.

(** C10. Implicit position normalisation.  For a wheel of size at least 1,
    whatever its position (negative, or beyond the size), a single
    [advance] succeeds and leaves the position in [0, size); so does every
    longer run of advances. *)
Theorem C10_position_normalised (h : heap) (l : loc) (w : Wheel) :
  h !! l = Some w ->
  1 <= wheel_size w ->
  (exists h1 w1,
      Wheel_advance l h = (Ok tt, h1)
      /\ h1 !! l = Some w1
      /\ wheel_size w1 = wheel_size w
      /\ 0 <= current_position w1 < wheel_size w1)
  /\ (forall n : nat, (1 <= n)%nat ->
      exists hn wn,
        repeat_m n (Wheel_advance l) h = (Ok tt, hn)
        /\ hn !! l = Some wn
        /\ wheel_size wn = wheel_size w
        /\ 0 <= current_position wn < wheel_size wn).
Proof.
  intros E Hs. split.
  - destruct (Wheel_advance_effect l h w E) as (h1 & E1 & E2 & _); [lia|].
    exists h1, (advanced w). repeat split; try done; cbn.
    + apply Z.mod_pos_bound. lia.
    + apply Z.mod_pos_bound. lia.
  - intros n Hn. eexists _, _.
    split; [apply (Wheel_advance_repeat l w); (done || lia)|].
    split; [apply list_lookup_insert_eq; by eapply lookup_lt_Some|].
    split; [done|]. cbn. apply Z.mod_pos_bound. lia.
Qed.

Lemma C10_position_normalised_witness :
  exists h1 w1,
    Wheel_advance 0%nat [mkWheel "w" [1; 0; 1] 3 (-7)] = (Ok tt, h1)
    /\ h1 !! 0%nat = Some w1
    /\ wheel_size w1 = 3
    /\ 0 <= current_position w1 < wheel_size w1.
Proof.
  exact (proj1 (C10_position_normalised [mkWheel "w" [1; 0; 1] 3 (-7)] 0%nat
                  (mkWheel "w" [1; 0; 1] 3 (-7)) eq_refl ltac:(simpl; lia))).
Defined.

(** ** Reads are pure *)

Lemma bind_pure {A B} (c : M A) (k : A -> M B) (h : heap) :
  (c h).2 = h -> (forall a, (k a h).2 = h) -> (bind c k h).2 = h.
Proof.
  unfold bind. destruct (c h) as [[a|e] h'] eqn:E; simpl; intros ->; [|done].
  intros Hk. apply Hk.
Qed.

Lemma comprehension_pure {A B} (f : A -> M B) (xs : list A) (h : heap) :
  (forall x, (f x h).2 = h) -> (comprehension f xs h).2 = h.
Proof.
  intros Hf. induction xs as [|x xs IH]; [done|]. simpl.
  apply bind_pure; [apply Hf|]. intros y.
  apply bind_pure; [apply IH|]. done.
Qed.

Lemma Wheel_get_current_value_pure (l : loc) (h : heap) :
  (Wheel_get_current_value l h).2 = h.
Proof. rewrite Wheel_get_current_value_unfold. by destruct (h !! l). Qed.

Lemma WheelSet_get_current_value_pure (ws : list loc) (h : heap) :
  (WheelSet_get_current_value ws h).2 = h.
Proof.
  unfold WheelSet_get_current_value. apply bind_pure; [|done].
  apply comprehension_pure. intros l. apply Wheel_get_current_value_pure.
Qed.

Lemma MotorWheelSet_is_active_pure (ws : list loc) (h : heap) :
  (MotorWheelSet_is_active ws h).2 = h.
Proof.
  unfold MotorWheelSet_is_active. apply bind_pure; [done|]. intros l.
  apply bind_pure; [apply Wheel_get_current_value_pure|done].
Qed.

Lemma is_active_pure (b : WheelSet) (h : heap) : (is_active b h).2 = h.
Proof.
  unfold is_active. destruct (bank_cls b); [done|].
  apply MotorWheelSet_is_active_pure.
Qed.

(** ** Valid wheels *)

Lemma is_bit_cases (b : Z) : is_bit b = true -> b = 0 \/ b = 1.
Proof. unfold is_bit. lia. Qed.

Lemma valid_wheel_inv (w : Wheel) :
  valid_wheel w = true ->
  1 <= wheel_size w
  /\ Z.of_nat (length (wheel_data w)) = wheel_size w
  /\ forallb is_bit (wheel_data w) = true
  /\ 0 <= current_position w < wheel_size w.
Proof.
  unfold valid_wheel. rewrite !andb_true_iff. intros [[[[H1 H2] H3] H4] H5].
  repeat split; try done; lia.
Qed.

Lemma valid_wheel_advanced (w : Wheel) :
  valid_wheel w = true -> valid_wheel (advanced w) = true.
Proof.
  intros H. pose proof (valid_wheel_inv w H) as (H1 & H2 & H3 & H4).
  unfold valid_wheel in *. cbn.
  pose proof (Z.mod_pos_bound (current_position w + 1) (wheel_size w)).
  rewrite !andb_true_iff in *. repeat split; try tauto; lia.
Qed.

Lemma py_getitem_in_range {A} (xs : list A) (i : Z) :
  - Z.of_nat (length xs) <= i < Z.of_nat (length xs) ->
  exists x, py_getitem xs i = Ok x /\ x ∈ xs.
Proof.
  intros Hi. unfold py_getitem.
  set (j := if i <? 0 then i + Z.of_nat (length xs) else i).
  assert (Hj : 0 <= j < Z.of_nat (length xs)).
  { unfold j. destruct (Z.ltb_spec i 0); lia. }
  destruct (Z.ltb_spec j 0); [lia|].
  destruct (xs !! Z.to_nat j) as [x|] eqn:E.
  - exists x. split; [done|]. by eapply list_elem_of_lookup_2.
  - apply lookup_ge_None in E. lia.
Qed.

Lemma readable_wheel_bit (w : Wheel) :
  readable_wheel w = true ->
  exists b, py_getitem (wheel_data w) (current_position w) = Ok b
            /\ is_bit b = true.
Proof.
  unfold readable_wheel. rewrite !andb_true_iff. intros [[H1 H2] H3].
  destruct (py_getitem_in_range (wheel_data w) (current_position w))
    as (b & E & Hb); [lia|].
  exists b. split; [done|].
  rewrite forallb_forall in H1. apply H1. by apply list_elem_of_In.
Qed.

Lemma valid_wheel_readable (w : Wheel) :
  valid_wheel w = true -> readable_wheel w = true.
Proof.
  intros H. pose proof (valid_wheel_inv w H) as (H1 & H2 & H3 & H4).
  unfold readable_wheel. rewrite H3. lia.
Qed.

Lemma valid_ref_inv (h : heap) (l : loc) :
  valid_ref h l = true -> exists w, h !! l = Some w /\ valid_wheel w = true.
Proof. unfold valid_ref. destruct (h !! l) as [w|]; [eauto|done]. Qed.

Lemma valid_ref_readable (h : heap) (l : loc) :
  valid_ref h l = true -> readable_ref h l = true.
Proof.
  intros (w & E & Hw)%valid_ref_inv. unfold readable_ref. rewrite E.
  by apply valid_wheel_readable.
Qed.

Lemma valid_bank_readable (h : heap) (ws : list loc) :
  valid_bank h ws = true -> readable_bank h ws = true.
Proof.
  unfold valid_bank, readable_bank. rewrite !forallb_forall.
  intros H l Hl. apply valid_ref_readable. by apply H.
Qed.

Lemma readable_ref_bit (h : heap) (l : loc) :
  readable_ref h l = true ->
  exists b, Wheel_get_current_value l h = (Ok b, h) /\ is_bit b = true.
Proof.
  unfold readable_ref. destruct (h !! l) as [w|] eqn:E; [|done]. intros Hw.
  destruct (readable_wheel_bit w Hw) as (b & Eb & Hb).
  exists b. by rewrite Wheel_get_current_value_unfold, E, Eb.
Qed.

Lemma valid_wheel_bit (w : Wheel) :
  valid_wheel w = true ->
  exists b, py_getitem (wheel_data w) (current_position w) = Ok b
            /\ is_bit b = true.
Proof. intros H. by apply readable_wheel_bit, valid_wheel_readable. Qed.

Lemma valid_wheel_bit_advanced (w : Wheel) :
  valid_wheel w = true ->
  exists b, py_getitem (wheel_data (advanced w)) (current_position (advanced w)) = Ok b
            /\ is_bit b = true.
Proof.
  intros H. apply readable_wheel_bit, valid_wheel_readable.
  by apply valid_wheel_advanced.
Qed.

(** ** The aggregate value of a bank *)

Lemma py_str_bit (b : Z) :
  is_bit b = true ->
  py_str b = String (if b =? 0 then "0"%char else "1"%char) EmptyString.
Proof. by intros [-> | ->]%is_bit_cases. Qed.

Lemma bin_digits_bits (bs : list Z) (acc : Z) :
  forallb is_bit bs = true ->
  bin_digits (py_join (map py_str bs)) acc
  = Some (fold_left (fun a b => 2 * a + b) bs acc).
Proof.
  revert acc. induction bs as [|b bs IH]; intros acc H; [done|].
  simpl in H. apply andb_true_iff in H as [Hb Hbs]. simpl.
  rewrite (py_str_bit b Hb).
  destruct (is_bit_cases b Hb) as [-> | ->]; simpl; rewrite IH by done;
    do 2 f_equal; lia.
Qed.

Lemma py_join_bits_nonempty (bs : list Z) :
  forallb is_bit bs = true -> bs <> [] ->
  py_join (map py_str bs) <> EmptyString.
Proof.
  destruct bs as [|b bs]; [done|]. simpl. intros [Hb _]%andb_true_iff _.
  by rewrite (py_str_bit b Hb).
Qed.

Lemma fold_left_rev_aggregate (bits : list Z) :
  fold_left (fun a b => 2 * a + b) (rev bits) 0 = spec_aggregate bits.
Proof.
  induction bits as [|b bs IH]; [done|].
  simpl. rewrite fold_left_app. simpl. rewrite IH. lia.
Qed.

Lemma spec_aggregate_range (bits : list Z) :
  forallb is_bit bits = true ->
  0 <= spec_aggregate bits < 2 ^ Z.of_nat (length bits).
Proof.
  induction bits as [|b bs IH]; [simpl; lia|].
  simpl forallb. intros [Hb Hbs]%andb_true_iff. specialize (IH Hbs).
  change (length (b :: bs)) with (S (length bs)).
  rewrite Nat2Z.inj_succ, Z.pow_succ_r by lia. simpl spec_aggregate.
  apply is_bit_cases in Hb. lia.
Qed.

Lemma py_int_0b_bits (bits : list Z) :
  forallb is_bit bits = true -> bits <> [] ->
  py_int_0b (py_join (map py_str (rev bits))) = Ok (spec_aggregate bits).
Proof.
  intros Hb Hne.
  assert (Hr : forallb is_bit (rev bits) = true).
  { rewrite forallb_forall in *. intros x Hx. apply Hb. by apply in_rev. }
  assert (Hn : rev bits <> []).
  { intros E. apply Hne. by rewrite <- (rev_involutive bits), E. }
  pose proof (py_join_bits_nonempty _ Hr Hn) as Hj.
  unfold py_int_0b. rewrite bin_digits_bits, fold_left_rev_aggregate by done.
  by destruct (py_join (map py_str (rev bits))).
Qed.

Lemma comprehension_bits (h : heap) (ws : list loc) :
  readable_bank h ws = true ->
  exists bits,
    comprehension Wheel_get_current_value ws h = (Ok bits, h)
    /\ Forall2 (fun l b => Wheel_get_current_value l h = (Ok b, h)) ws bits
    /\ forallb is_bit bits = true.
Proof.
  induction ws as [|l ws IH]; simpl.
  - intros _. exists []. by repeat split.
  - intros [Hl Hws]%andb_true_iff.
    destruct (readable_ref_bit h l Hl) as (b & Eb & Hb).
    destruct (IH Hws) as (bits & Ebits & HF & Hbits).
    exists (b :: bits). split; [|split].
    + erewrite bind_ok by exact Eb. by erewrite bind_ok by exact Ebits.
    + by constructor.
    + simpl. by rewrite Hb, Hbits.
Qed.

Lemma WheelSet_get_current_value_readable (h : heap) (ws : list loc) :
  ws <> [] -> readable_bank h ws = true ->
  exists bits,
    Forall2 (fun l b => Wheel_get_current_value l h = (Ok b, h)) ws bits
    /\ forallb is_bit bits = true
    /\ WheelSet_get_current_value ws h = (Ok (spec_aggregate bits), h).
Proof.
  intros Hne Hv. destruct (comprehension_bits h ws Hv) as (bits & E & HF & Hb).
  exists bits. split; [done|]. split; [done|].
  unfold WheelSet_get_current_value. erewrite bind_ok by exact E.
  unfold lift. rewrite py_int_0b_bits; [done..|].
  intros ->. apply Forall2_length in HF. by destruct ws.
Qed.

(** C5. The aggregate value of a bank.  For a non-empty bank of N wheels
    whose patterns hold only the bits 0 and 1 and whose positions index
    their patterns, [get_current_value]
    returns the little-endian number of the wheels' current bits, the first
    wheel giving the least significant bit; the value lies in [0, 2^N);
    current bits [1,0,1] give 5; and the read leaves the heap, hence every
    wheel, as it was. *)
Theorem C5_aggregate_value (h : heap) (ws : list loc) :
  ws <> [] ->
  readable_bank h ws = true ->
  exists bits,
    Forall2 (fun l b => Wheel_get_current_value l h = (Ok b, h)) ws bits
    /\ WheelSet_get_current_value ws h = (Ok (spec_aggregate bits), h)
    /\ 0 <= spec_aggregate bits < 2 ^ Z.of_nat (length ws)
    /\ (bits = [1; 0; 1] ->
        WheelSet_get_current_value ws h = (Ok 5, h)).
Proof.
  intros Hne Hv.
  destruct (WheelSet_get_current_value_readable h ws Hne Hv) as (bits & HF & Hb & E).
  exists bits. split; [done|]. split; [done|]. split.
  - rewrite (Forall2_length _ _ _ HF). by apply spec_aggregate_range.
  - intros ->. exact E.
Qed.

Lemma C5_aggregate_value_witness :
  let h := [mkWheel "a" [0; 1] 2 1; mkWheel "b" [0; 1] 2 0; mkWheel "c" [1] 1 0] in
  exists bits,
    Forall2 (fun l b => Wheel_get_current_value l h = (Ok b, h)) [0; 1; 2]%nat bits
    /\ WheelSet_get_current_value [0; 1; 2]%nat h = (Ok (spec_aggregate bits), h)
    /\ 0 <= spec_aggregate bits < 2 ^ Z.of_nat 3
    /\ (bits = [1; 0; 1] ->
        WheelSet_get_current_value [0; 1; 2]%nat h = (Ok 5, h)).
Proof.
  intros h.
  exact (C5_aggregate_value h [0; 1; 2]%nat ltac:(discriminate) eq_refl).
Defined.

(** ** Advancing banks *)

Lemma WheelSet_advance_spec (ws : list loc) (h : heap) :
  NoDup ws ->
  (forall l, l ∈ ws -> exists w, h !! l = Some w /\ wheel_size w <> 0) ->
  exists h',
    WheelSet_advance ws h = (Ok tt, h')
    /\ length h' = length h
    /\ (forall l w, l ∈ ws -> h !! l = Some w -> h' !! l = Some (advanced w))
    /\ (forall l, l ∉ ws -> h' !! l = h !! l).
Proof.
  unfold WheelSet_advance. revert h.
  induction ws as [|l ws IH]; intros h Hnd Hws.
  - exists h. repeat split; try done. intros l w Hl. by apply elem_of_nil in Hl.
  - apply NoDup_cons in Hnd as [Hl Hnd].
    destruct (Hws l) as (w & E & Hs); [left|].
    destruct (Wheel_advance_effect l h w E Hs) as (h1 & E1 & E2 & E3 & E4).
    destruct (IH h1 Hnd) as (h' & E' & Hlen & Hin & Hout).
    { intros l' Hl'. destruct (Hws l') as (w' & Ew' & Hs'); [by right|].
      exists w'. split; [|done]. rewrite E3; [done|]. by intros ->. }
    exists h'. split; [|split; [congruence|split]].
    + simpl. by erewrite bind_ok by exact E1.
    + intros l' w' [-> | Hl']%elem_of_cons Ew'.
      * rewrite Hout by done. congruence.
      * apply Hin; [done|]. rewrite E3; [done|]. by intros ->.
    + intros l' [Hne Hl']%not_elem_of_cons. rewrite Hout by done. by apply E3.
Qed.

Lemma MotorWheelSet_advance_spec (l0 l1 : loc) (rest : list loc) (h : heap)
    (w0 w1 : Wheel) :
  l0 <> l1 -> h !! l0 = Some w0 -> h !! l1 = Some w1 ->
  valid_wheel w0 = true -> wheel_size w1 <> 0 ->
  exists bit0 h',
    MotorWheelSet_advance (l0 :: l1 :: rest) h = (Ok tt, h')
    /\ is_bit bit0 = true
    /\ Wheel_get_current_value l0 h' = (Ok bit0, h')
    /\ h' !! l0 = Some (advanced w0)
    /\ h' !! l1 = Some (if bit0 =? 1 then advanced w1 else w1)
    /\ (forall l, l <> l0 -> l <> l1 -> h' !! l = h !! l)
    /\ length h' = length h.
Proof.
  intros Hne E0 E1 Hv0 Hs1.
  pose proof (valid_wheel_inv w0 Hv0) as (Hs0 & _).
  destruct (Wheel_advance_effect l0 h w0 E0) as (h1 & A1 & A2 & A3 & A4); [lia|].
  destruct (valid_wheel_bit_advanced w0 Hv0) as (bit0 & Eb & Hb).
  assert (G : Wheel_get_current_value l0 h1 = (Ok bit0, h1)).
  { by rewrite Wheel_get_current_value_unfold, A2, Eb. }
  assert (E1' : h1 !! l1 = Some w1) by (rewrite A3; done).
  unfold MotorWheelSet_advance.
  change (py_getitem (l0 :: l1 :: rest) 0) with (Ok (A:=nat) l0).
  change (py_getitem (l0 :: l1 :: rest) 1) with (Ok (A:=nat) l1).
  destruct (Z.eqb_spec bit0 1) as [-> | Hbit].
  - destruct (Wheel_advance_effect l1 h1 w1 E1' Hs1) as (h2 & B1 & B2 & B3 & B4).
    exists 1, h2. split; [|split; [done|split; [|split; [|split; [done|split]]]]].
    + unfold bind at 1. unfold lift at 1. unfold bind at 1. rewrite A1.
      unfold bind at 1. unfold lift at 1. unfold bind at 1. rewrite G.
      simpl. unfold bind, lift. exact B1.
    + rewrite Wheel_get_current_value_unfold, B3, A2 by done.
      rewrite Wheel_get_current_value_unfold, A2 in G. by inversion G.
    + by rewrite B3.
    + intros l Hl0 Hl1. by rewrite B3, A3.
    + congruence.
  - exists bit0, h1. split; [|split; [done|split; [done|split; [done|split; [|split]]]]].
    + unfold bind at 1. unfold lift at 1. unfold bind at 1. rewrite A1.
      unfold bind at 1. unfold lift at 1. unfold bind at 1. rewrite G.
      by destruct (Z.eqb_spec bit0 1).
    + by destruct (Z.eqb_spec bit0 1).
    + intros l Hl0 _. by apply A3.
    + done.
Qed.

(** ** The motor bank *)

Lemma valid_wheel_pattern_1 (w : Wheel) :
  valid_wheel w = true -> wheel_data w = [1] ->
  advanced w = w
  /\ py_getitem (wheel_data w) (current_position w) = Ok 1.
Proof.
  intros Hv Hd. pose proof (valid_wheel_inv w Hv) as (H1 & H2 & _ & H4).
  rewrite Hd in H2. simpl in H2.
  assert (Hp : current_position w = 0) by lia.
  split.
  - unfold advanced. rewrite <- H2, Z.mod_1_r, <- Hp.
    apply set_current_position_same.
  - by rewrite Hd, Hp.
Qed.

Lemma valid_wheel_pattern_00 (w : Wheel) :
  valid_wheel w = true -> wheel_data w = [0; 0] ->
  py_getitem (wheel_data w) (current_position w) = Ok 0.
Proof.
  intros Hv Hd. pose proof (valid_wheel_inv w Hv) as (H1 & H2 & _ & H4).
  rewrite Hd in *. simpl in H2.
  assert (Hp : current_position w = 0 \/ current_position w = 1) by lia.
  by destruct Hp as [-> | ->].
Qed.

Lemma motor_always (l0 l1 : loc) (rest : list loc) (n : nat) :
  l0 <> l1 ->
  forall (h : heap) (w0 w1 : Wheel),
  h !! l0 = Some w0 -> h !! l1 = Some w1 ->
  valid_wheel w0 = true -> valid_wheel w1 = true ->
  wheel_data w0 = [1] ->
  exists hn,
    repeat_m n (MotorWheelSet_advance (l0 :: l1 :: rest)) h = (Ok tt, hn)
    /\ hn !! l1 = Some (set_current_position w1
                         ((current_position w1 + Z.of_nat n) mod wheel_size w1)).
Proof.
  intros Hne. induction n as [|n IH]; intros h w0 w1 E0 E1 Hv0 Hv1 Hd.
  - exists h. split; [done|].
    pose proof (valid_wheel_inv w1 Hv1) as (_ & _ & _ & Hp).
    rewrite Z.add_0_r, Z.mod_small by done.
    by rewrite set_current_position_same.
  - pose proof (valid_wheel_inv w1 Hv1) as (Hs1 & _).
    destruct (MotorWheelSet_advance_spec l0 l1 rest h w0 w1)
      as (bit0 & h' & A & _ & G & A0 & A1 & _); [done..|lia|].
    destruct (valid_wheel_pattern_1 w0 Hv0 Hd) as [Hadv Hbit].
    rewrite Wheel_get_current_value_unfold, A0, Hadv, Hbit in G.
    injection G as <-. simpl in A1. rewrite Hadv in A0.
    destruct (IH h' w0 (advanced w1)) as (hn & R & En);
      [done..|by apply valid_wheel_advanced|done|].
    exists hn. split.
    + simpl. by erewrite bind_ok by exact A.
    + rewrite En. cbn. rewrite Zplus_mod_idemp_l. do 3 f_equal. lia.
Qed.

Lemma motor_never (l0 l1 : loc) (rest : list loc) (n : nat) :
  l0 <> l1 ->
  forall (h : heap) (w0 w1 : Wheel),
  h !! l0 = Some w0 -> h !! l1 = Some w1 ->
  valid_wheel w0 = true -> valid_wheel w1 = true ->
  wheel_data w0 = [0; 0] ->
  exists hn,
    repeat_m n (MotorWheelSet_advance (l0 :: l1 :: rest)) h = (Ok tt, hn)
    /\ hn !! l1 = Some w1.
Proof.
  intros Hne. induction n as [|n IH]; intros h w0 w1 E0 E1 Hv0 Hv1 Hd.
  - by exists h.
  - pose proof (valid_wheel_inv w1 Hv1) as (Hs1 & _).
    destruct (MotorWheelSet_advance_spec l0 l1 rest h w0 w1)
      as (bit0 & h' & A & _ & G & A0 & A1 & _); [done..|lia|].
    pose proof (valid_wheel_advanced w0 Hv0) as Hv0'.
    rewrite Wheel_get_current_value_unfold, A0 in G.
    rewrite (valid_wheel_pattern_00 (advanced w0)) in G by done.
    injection G as <-. simpl in A1.
    destruct (IH h' (advanced w0) w1) as (hn & R & En); [done..|].
    exists hn. split; [|done].
    simpl. by erewrite bind_ok by exact A.
Qed.

Lemma valid_motor_inv (ws : list loc) (h : heap) :
  valid_motor ws h = true ->
  exists l0 l1 rest w0 w1,
    ws = l0 :: l1 :: rest /\ l0 <> l1
    /\ h !! l0 = Some w0 /\ h !! l1 = Some w1
    /\ valid_wheel w0 = true /\ valid_wheel w1 = true.
Proof.
  destruct ws as [|l0 [|l1 rest]]; [done..|]. simpl.
  rewrite !andb_true_iff, negb_true_iff, Nat.eqb_neq.
  intros [[(w0 & E0 & H0)%valid_ref_inv (w1 & E1 & H1)%valid_ref_inv] Hne].
  by exists l0, l1, rest, w0, w1.
Qed.

(** C4. Motor gating.  On a motor bank whose two wheels are distinct valid
    wheels, one [advance] moves wheel 0 by exactly one position, then moves
    wheel 1 by exactly one position when the bit wheel 0 shows after its own
    move is 1, and leaves wheel 1 as it was otherwise; it touches no other
    object.  Hence with the pattern [1] on wheel 0, wheel 1 moves on every
    cycle, and with the pattern [0,0] it never moves.  [is_active] is true
    exactly when wheel 1's current bit is 1, and it changes nothing. *)
Theorem C4_motor_gating (ws : list loc) (h : heap) :
  valid_motor ws h = true ->
  exists l0 l1 w0 w1,
    ws !! 0%nat = Some l0 /\ ws !! 1%nat = Some l1
    /\ h !! l0 = Some w0 /\ h !! l1 = Some w1
    /\ (exists bit0 h',
          MotorWheelSet_advance ws h = (Ok tt, h')
          /\ h' !! l0 = Some (advanced w0)
          /\ Wheel_get_current_value l0 h' = (Ok bit0, h')
          /\ h' !! l1 = Some (if bit0 =? 1 then advanced w1 else w1)
          /\ (forall l, l <> l0 -> l <> l1 -> h' !! l = h !! l))
    /\ (wheel_data w0 = [1] -> forall n : nat, exists hn,
          repeat_m n (MotorWheelSet_advance ws) h = (Ok tt, hn)
          /\ hn !! l1 = Some (set_current_position w1
               ((current_position w1 + Z.of_nat n) mod wheel_size w1)))
    /\ (wheel_data w0 = [0; 0] -> forall n : nat, exists hn,
          repeat_m n (MotorWheelSet_advance ws) h = (Ok tt, hn)
          /\ hn !! l1 = Some w1)
    /\ (exists bit1,
          Wheel_get_current_value l1 h = (Ok bit1, h)
          /\ MotorWheelSet_is_active ws h = (Ok (bool_decide (bit1 = 1)), h)).
Proof.
  intros (l0 & l1 & rest & w0 & w1 & -> & Hne & E0 & E1 & Hv0 & Hv1)%valid_motor_inv.
  exists l0, l1, w0, w1. do 4 (split; [done|]).
  pose proof (valid_wheel_inv w1 Hv1) as (Hs1 & _).
  split; [|split; [|split]].
  - destruct (MotorWheelSet_advance_spec l0 l1 rest h w0 w1)
      as (bit0 & h' & A & _ & G & A0 & A1 & A2 & _); [done..|lia|].
    by exists bit0, h'.
  - intros Hd n. by apply (motor_always l0 l1 rest n Hne h w0 w1).
  - intros Hd n. by apply (motor_never l0 l1 rest n Hne h w0 w1).
  - destruct (valid_wheel_bit w1 Hv1) as (bit1 & Eb & Hb).
    assert (G : Wheel_get_current_value l1 h = (Ok bit1, h)).
    { by rewrite Wheel_get_current_value_unfold, E1, Eb. }
    exists bit1. split; [done|].
    unfold MotorWheelSet_is_active.
    change (py_getitem (l0 :: l1 :: rest) 1) with (Ok (A:=nat) l1).
    unfold bind at 1. unfold lift at 1. unfold bind. rewrite G. unfold ret.
    destruct (Z.eqb_spec bit1 1) as [-> | Hn]; [done|].
    by rewrite bool_decide_eq_false_2.
Qed.

Lemma C4_motor_gating_witness :
  exists h',
    MotorWheelSet_advance [4; 5]%nat demo_heap = (Ok tt, h')
    /\ h' !! 4%nat = Some (mkWheel "m1" [1; 0] 2 1)
    /\ h' !! 5%nat = Some (mkWheel "m2" [1; 1] 2 0).
Proof.
  destruct (C4_motor_gating [4; 5]%nat demo_heap eq_refl)
    as (l0 & l1 & w0 & w1 & E0 & E1 & F0 & F1 & (bit0 & h' & A & A0 & G & A1 & _) & _).
  injection E0 as <-. injection E1 as <-.
  injection F0 as <-. injection F1 as <-.
  exists h'. split; [exact A|]. split; [exact A0|].
  rewrite Wheel_get_current_value_unfold, A0 in G. injection G as <-.
  exact A1.
Defined.

(** ** The machine step *)


Lemma valid_bank_elem (h : heap) (ws : list loc) (l : loc) :
  valid_bank h ws = true -> l ∈ ws -> valid_ref h l = true.
Proof.
  unfold valid_bank. rewrite forallb_forall. intros H Hl.
  apply H. by apply list_elem_of_In.
Qed.

Lemma valid_bank_intro (h : heap) (ws : list loc) :
  (forall l, l ∈ ws -> valid_ref h l = true) -> valid_bank h ws = true.
Proof.
  intros H. unfold valid_bank. rewrite forallb_forall. intros l Hl.
  apply H. by apply list_elem_of_In.
Qed.

Lemma valid_machine_inv (m : LorenzMachine) (h : heap) :
  valid_machine m h = true ->
  bank_cls (k_set m) = PlainBank
  /\ bank_cls (s_set m) = PlainBank
  /\ bank_cls (m_set m) = MotorBank
  /\ wheels (k_set m) <> []
  /\ wheels (s_set m) <> []
  /\ (exists l0 l1 rest, wheels (m_set m) = l0 :: l1 :: rest)
  /\ valid_bank h (machine_refs m) = true
  /\ NoDup (machine_refs m).
Proof.
  unfold valid_machine, is_plain, is_motor. rewrite !andb_true_iff.
  intros [[[[[[[H1 H2] H3] H4] H5] H6] H7] H8].
  split; [by destruct (bank_cls (k_set m))|].
  split; [by destruct (bank_cls (s_set m))|].
  split; [by destruct (bank_cls (m_set m))|].
  split; [by destruct (wheels (k_set m))|].
  split; [by destruct (wheels (s_set m))|].
  split; [|split; [done|by apply bool_decide_eq_true_1 in H8]].
  destruct (wheels (m_set m)) as [|l0 [|l1 rest]]; [done..|].
  by exists l0, l1, rest.
Qed.

Lemma valid_machine_preserved (m : LorenzMachine) (h h' : heap) :
  valid_machine m h = true ->
  (forall l w, h !! l = Some w ->
               h' !! l = Some w \/ h' !! l = Some (advanced w)) ->
  valid_machine m h' = true.
Proof.
  intros Hv Hstep.
  pose proof (valid_machine_inv m h Hv) as (_ & _ & _ & _ & _ & _ & Hb & _).
  unfold valid_machine in *. rewrite !andb_true_iff in *.
  destruct Hv as [[[[[[[H1 H2] H3] H4] H5] H6] H7] H8].
  repeat split; try done.
  apply valid_bank_intro. intros l Hl.
  destruct (valid_ref_inv h l (valid_bank_elem _ _ _ Hb Hl)) as (w & E & Hw).
  unfold valid_ref.
  destruct (Hstep l w E) as [-> | ->]; [done|by apply valid_wheel_advanced].
Qed.

Lemma LorenzMachine_advance_spec (m : LorenzMachine) (h : heap) :
  valid_machine m h = true ->
  exists h1 h2 act h3,
    advance (k_set m) h = (Ok tt, h1)
    /\ advance (m_set m) h1 = (Ok tt, h2)
    /\ is_active (m_set m) h2 = (Ok act, h2)
    /\ (if act then advance (s_set m) h2 = (Ok tt, h3) else h3 = h2)
    /\ LorenzMachine_advance m h = (Ok tt, h3)
    /\ (forall l w, l ∈ wheels (k_set m) -> h !! l = Some w ->
                    h3 !! l = Some (advanced w))
    /\ (forall l w, l ∈ wheels (s_set m) -> h !! l = Some w ->
                    h3 !! l = Some (if act then advanced w else w))
    /\ (forall l w, h !! l = Some w ->
                    h3 !! l = Some w \/ h3 !! l = Some (advanced w)).
Proof.
  intros Hv.
  pose proof (valid_machine_inv m h Hv)
    as (Ck & Cs & Cm & Nk & Ns & (l0 & l1 & rest & Em) & Hb & Hnd).
  unfold machine_refs in Hb, Hnd. rewrite Em in Hb, Hnd.
  apply NoDup_app in Hnd as (Ndk & Dk & Hnd).
  apply NoDup_app in Hnd as (Nds & Ds & Ndm).
  apply NoDup_cons in Ndm as [Hl01 _].
  assert (Hne : l0 <> l1) by (intros ->; apply Hl01; left).
  assert (Vk : forall l, l ∈ wheels (k_set m) -> valid_ref h l = true).
  { intros l Hl. apply (valid_bank_elem _ _ _ Hb). solve_elem. }
  assert (Vs : forall l, l ∈ wheels (s_set m) -> valid_ref h l = true).
  { intros l Hl. apply (valid_bank_elem _ _ _ Hb). solve_elem. }
  assert (V0 : valid_ref h l0 = true).
  { apply (valid_bank_elem _ _ _ Hb). solve_elem. }
  assert (V1 : valid_ref h l1 = true).
  { apply (valid_bank_elem _ _ _ Hb). solve_elem. }
  assert (K0 : l0 ∉ wheels (k_set m)) by (intros H; apply (Dk _ H); solve_elem).
  assert (K1 : l1 ∉ wheels (k_set m)) by (intros H; apply (Dk _ H); solve_elem).
  assert (S0 : l0 ∉ wheels (s_set m)) by (intros H; apply (Ds _ H); solve_elem).
  assert (S1 : l1 ∉ wheels (s_set m)) by (intros H; apply (Ds _ H); solve_elem).
  assert (KS : forall l, l ∈ wheels (s_set m) -> l ∉ wheels (k_set m)).
  { intros l Hs Hk. apply (Dk _ Hk). solve_elem. }
  (* the K-bank *)
  destruct (WheelSet_advance_spec (wheels (k_set m)) h Ndk)
    as (h1 & A1 & _ & Kin & Kout).
  { intros l Hl. destruct (valid_ref_inv h l (Vk l Hl)) as (w & E & Hw).
    exists w. split; [done|]. pose proof (valid_wheel_inv w Hw). lia. }
  (* the motor bank *)
  destruct (valid_ref_inv h l0 V0) as (w0 & E0 & Hw0).
  destruct (valid_ref_inv h l1 V1) as (w1 & E1 & Hw1).
  destruct (MotorWheelSet_advance_spec l0 l1 rest h1 w0 w1)
    as (bit0 & h2 & A2 & _ & _ & M0 & M1 & Mout & _);
    [done|by rewrite Kout|by rewrite Kout|done
    |pose proof (valid_wheel_inv w1 Hw1); lia|].
  (* the is-active signal *)
  set (w1' := if bit0 =? 1 then advanced w1 else w1) in M1.
  assert (Hw1' : valid_wheel w1' = true).
  { unfold w1'. destruct (bit0 =? 1); [by apply valid_wheel_advanced|done]. }
  destruct (valid_wheel_bit w1' Hw1') as (bit1 & Eb1 & _).
  set (act := if bit1 =? 1 then true else false).
  assert (A3 : is_active (m_set m) h2 = (Ok act, h2)).
  { unfold is_active. rewrite Cm, Em. unfold MotorWheelSet_is_active.
    change (py_getitem (l0 :: l1 :: rest) 1) with (Ok (A:=nat) l1).
    unfold bind at 1. unfold lift at 1. unfold bind.
    by rewrite Wheel_get_current_value_unfold, M1, Eb1. }
  assert (Sh2 : forall l, l ∈ wheels (s_set m) -> h2 !! l = h !! l).
  { intros l Hl. rewrite Mout, Kout; [done|by apply KS|..]; by intros ->. }
  assert (Kh2 : forall l, l ∈ wheels (k_set m) -> h2 !! l = h1 !! l).
  { intros l Hl. apply Mout; by intros ->. }
  assert (R2 : forall l w, h !! l = Some w ->
               l ∉ wheels (s_set m) ->
               h2 !! l = Some w \/ h2 !! l = Some (advanced w)).
  { intros l w E _.
    destruct (decide (l ∈ wheels (k_set m))) as [Hk|Hk].
    { right. rewrite Kh2 by done. by apply Kin. }
    destruct (decide (l = l0)) as [->|H0].
    { right. congruence. }
    destruct (decide (l = l1)) as [->|H1].
    { rewrite M1. unfold w1'. replace w with w1 by congruence.
      destruct (bit0 =? 1); auto. }
    left. by rewrite Mout, Kout. }
  destruct act eqn:Hact.
  - (* the S-bank moves *)
    destruct (WheelSet_advance_spec (wheels (s_set m)) h2 Nds)
      as (h3 & A4 & _ & Sin & Sout).
    { intros l Hl. destruct (valid_ref_inv h l (Vs l Hl)) as (w & E & Hw).
      exists w. rewrite Sh2 by done. split; [done|].
      pose proof (valid_wheel_inv w Hw). lia. }
    exists h1, h2, true, h3.
    split; [by unfold advance; rewrite Ck|].
    split; [by unfold advance; rewrite Cm, Em|].
    split; [done|]. split; [by unfold advance; rewrite Cs|].
    split; [|split; [|split]].
    + unfold LorenzMachine_advance.
      erewrite bind_ok by (unfold advance; rewrite Ck; exact A1).
      erewrite bind_ok by (unfold advance; rewrite Cm, Em; exact A2).
      erewrite bind_ok by exact A3.
      unfold advance. by rewrite Cs.
    + intros l w Hl E. rewrite Sout, Kh2 by (done || intros Hs; by apply (KS l Hs)).
      by apply Kin.
    + intros l w Hl E. apply Sin; [done|]. by rewrite Sh2.
    + intros l w E.
      destruct (decide (l ∈ wheels (s_set m))) as [Hs|Hs].
      * right. apply Sin; [done|]. by rewrite Sh2.
      * rewrite Sout by done. by apply R2.
  - (* the S-bank stays *)
    exists h1, h2, false, h2.
    split; [by unfold advance; rewrite Ck|].
    split; [by unfold advance; rewrite Cm, Em|].
    split; [done|]. split; [done|].
    split; [|split; [|split]].
    + unfold LorenzMachine_advance.
      erewrite bind_ok by (unfold advance; rewrite Ck; exact A1).
      erewrite bind_ok by (unfold advance; rewrite Cm, Em; exact A2).
      by erewrite bind_ok by exact A3.
    + intros l w Hl E. rewrite Kh2 by done. by apply Kin.
    + intros l w Hl E. by rewrite Sh2.
    + intros l w E.
      destruct (decide (l ∈ wheels (s_set m))) as [Hs|Hs].
      * left. by rewrite Sh2.
      * by apply R2.
Qed.

(** C3. One machine step.  From a valid state, [LorenzMachine.advance]
    advances the K-bank, then advances the motor bank, then reads the motor
    bank's is-active signal in the heap the motor bank's own advance left,
    and advances the S-bank exactly when that signal is true.  Every K
    wheel has moved by one position; every S wheel has moved by one
    position when the signal is true and is left as it was when it is
    not. *)
Theorem C3_machine_step (m : LorenzMachine) (h : heap) :
  valid_machine m h = true ->
  exists h1 h2 act h3,
    advance (k_set m) h = (Ok tt, h1)
    /\ advance (m_set m) h1 = (Ok tt, h2)
    /\ is_active (m_set m) h2 = (Ok act, h2)
    /\ (if act then advance (s_set m) h2 = (Ok tt, h3) else h3 = h2)
    /\ LorenzMachine_advance m h = (Ok tt, h3)
    /\ (forall l w, l ∈ wheels (k_set m) -> h !! l = Some w ->
                    h3 !! l = Some (advanced w))
    /\ (forall l w, l ∈ wheels (s_set m) -> h !! l = Some w ->
                    h3 !! l = Some (if act then advanced w else w)).
Proof.
  intros Hv.
  destruct (LorenzMachine_advance_spec m h Hv)
    as (h1 & h2 & act & h3 & A1 & A2 & A3 & A4 & A5 & A6 & A7 & _).
  by exists h1, h2, act, h3.
Qed.

Lemma C3_machine_step_witness :
  exists h3, LorenzMachine_advance demo_machine demo_heap = (Ok tt, h3)
    /\ h3 !! 0%nat = Some (mkWheel "k1" [1; 0; 1] 3 1).
Proof.
  destruct (C3_machine_step demo_machine demo_heap eq_refl)
    as (h1 & h2 & act & h3 & _ & _ & _ & _ & A & K & _).
  exists h3. split; [exact A|].
  apply (K 0%nat (mkWheel "k1" [1; 0; 1] 3 0)); [left|reflexivity].
Defined.

(** ** Encrypting one symbol *)

Lemma valid_machine_banks (m : LorenzMachine) (h : heap) :
  valid_machine m h = true ->
  valid_bank h (wheels (k_set m)) = true
  /\ valid_bank h (wheels (s_set m)) = true.
Proof.
  intros Hv.
  pose proof (valid_machine_inv m h Hv) as (_ & _ & _ & _ & _ & _ & Hb & _).
  split; apply valid_bank_intro; intros l Hl;
    apply (valid_bank_elem _ _ _ Hb); unfold machine_refs; solve_elem.
Qed.

Lemma encrypt_character_spec (m : LorenzMachine) (h : heap) (char : Z) :
  valid_machine m h = true ->
  exists k s h',
    get_current_value (k_set m) h = (Ok k, h)
    /\ get_current_value (s_set m) h = (Ok s, h)
    /\ spec_keystreamValue m h = (Ok (Z.lxor k s), h)
    /\ LorenzMachine_advance m h = (Ok tt, h')
    /\ encrypt_character m char h = (Ok (Z.lxor char (Z.lxor k s)), h')
    /\ valid_machine m h' = true.
Proof.
  intros Hv.
  pose proof (valid_machine_inv m h Hv) as (_ & _ & _ & Nk & Ns & _).
  destruct (valid_machine_banks m h Hv) as [Vk Vs].
  destruct (WheelSet_get_current_value_readable h _ Nk (valid_bank_readable _ _ Vk))
    as (kb & _ & _ & Ek).
  destruct (WheelSet_get_current_value_readable h _ Ns (valid_bank_readable _ _ Vs))
    as (sb & _ & _ & Es).
  destruct (LorenzMachine_advance_spec m h Hv)
    as (h1 & h2 & act & h3 & _ & _ & _ & _ & A & _ & _ & Hstep).
  exists (spec_aggregate kb), (spec_aggregate sb), h3.
  split; [done|]. split; [done|]. split; [|split; [done|split]].
  - unfold spec_keystreamValue, get_current_value.
    erewrite bind_ok by exact Ek. by erewrite bind_ok by exact Es.
  - unfold encrypt_character, get_current_value.
    erewrite bind_ok by exact Ek. erewrite bind_ok by exact Es.
    erewrite bind_ok by exact A. unfold ret. by rewrite Z.lxor_assoc.
  - by apply (valid_machine_preserved m h).
Qed.

Lemma encrypted_message_spec (m : LorenzMachine) (message : list Z) :
  forall h, valid_machine m h = true ->
  exists out hN,
    encrypted_message m message h = (Ok out, hN)
    /\ valid_machine m hN = true
    /\ length out = length message
    /\ forall (i : nat) (c : Z), message !! i = Some c ->
       exists hi kv,
         repeat_m i (LorenzMachine_advance m) h = (Ok tt, hi)
         /\ spec_keystreamValue m hi = (Ok kv, hi)
         /\ out !! i = Some (Z.lxor c kv).
Proof.
  unfold encrypted_message.
  induction message as [|c0 cs IH]; intros h Hv.
  - exists [], h. repeat split; try done; intros i c Hi; by destruct i.
  - destruct (encrypt_character_spec m h c0 Hv)
      as (k & s & h' & _ & _ & Ks & A & E & Hv').
    destruct (IH h' Hv') as (out & hN & Eo & HvN & Hlen & Hnth).
    exists (Z.lxor c0 (Z.lxor k s) :: out), hN.
    split; [|split; [done|split; [by simpl; rewrite Hlen|]]].
    + simpl. erewrite bind_ok by exact E. by erewrite bind_ok by exact Eo.
    + intros [|i] c Hi.
      * injection Hi as <-. by exists h, (Z.lxor k s).
      * destruct (Hnth i c Hi) as (hi & kv & R & Kv & Eout).
        exists hi, kv. split; [|done].
        simpl. by erewrite bind_ok by exact A.
Qed.

(** C2. Encrypting a symbol.  From a valid state, [encrypt_character]
    returns the code XOR the keystream value (K aggregate XOR S aggregate)
    read in the state before any advance, and leaves the heap that one
    machine step produces from that state.  So in a message, the i-th code
    is XORed with the keystream value read after exactly i machine steps
    from the initial state. *)
Theorem C2_encrypt_character (m : LorenzMachine) (h : heap)
    (char : Z) (message : list Z) :
  valid_machine m h = true ->
  (exists k s h',
      get_current_value (k_set m) h = (Ok k, h)
      /\ get_current_value (s_set m) h = (Ok s, h)
      /\ spec_keystreamValue m h = (Ok (Z.lxor k s), h)
      /\ LorenzMachine_advance m h = (Ok tt, h')
      /\ encrypt_character m char h = (Ok (Z.lxor char (Z.lxor k s)), h'))
  /\ (exists out hN,
      encrypted_message m message h = (Ok out, hN)
      /\ forall (i : nat) (c : Z), message !! i = Some c ->
         exists hi kv,
           repeat_m i (LorenzMachine_advance m) h = (Ok tt, hi)
           /\ spec_keystreamValue m hi = (Ok kv, hi)
           /\ out !! i = Some (Z.lxor c kv)).
Proof.
  intros Hv. split.
  - destruct (encrypt_character_spec m h char Hv)
      as (k & s & h' & Ek & Es & Ks & A & E & _).
    by exists k, s, h'.
  - destruct (encrypted_message_spec m message h Hv)
      as (out & hN & E & _ & _ & Hnth).
    by exists out, hN.
Qed.

Lemma C2_encrypt_character_witness :
  exists h', encrypt_character demo_machine 3 demo_heap = (Ok 3, h')
             /\ LorenzMachine_advance demo_machine demo_heap = (Ok tt, h').
Proof.
  destruct (C2_encrypt_character demo_machine demo_heap 3 [0; 3] eq_refl)
    as [(k & s & h' & Ek & Es & _ & A & E) _].
  injection Ek as <-. injection Es as <-.
  exists h'. split; [exact E | exact A].
Defined.

(** ** Two engines side by side *)

Lemma result_rel_eq {A} (r1 r2 : result A) : result_rel eq r1 r2 <-> r1 = r2.
Proof.
  destruct r1, r2; simpl; split; try done; by intros [= ->] || intros ->.
Qed.

Lemma same_wheel_inv (w1 w2 : Wheel) :
  same_wheel w1 w2 = true ->
  wheel_data w1 = wheel_data w2
  /\ wheel_size w1 = wheel_size w2
  /\ current_position w1 = current_position w2.
Proof.
  unfold same_wheel. rewrite !andb_true_iff.
  intros [[H1 H2] H3]. apply bool_decide_eq_true in H1.
  repeat split; [done|lia..].
Qed.

Lemma same_wheel_advanced (w1 w2 : Wheel) :
  same_wheel w1 w2 = true -> same_wheel (advanced w1) (advanced w2) = true.
Proof.
  intros (Hd & Hs & Hp)%same_wheel_inv. unfold same_wheel. cbn.
  rewrite Hd, Hs, Hp. rewrite bool_decide_eq_true_2 by done. lia.
Qed.

Lemma one_to_one_inv (ps : list (loc * loc)) :
  one_to_one ps = true ->
  forall p q, p ∈ ps -> q ∈ ps -> (p.1 = q.1 <-> p.2 = q.2).
Proof.
  unfold one_to_one. rewrite forallb_forall. intros H p q Hp Hq.
  apply list_elem_of_In in Hp, Hq. specialize (H p Hp).
  rewrite forallb_forall in H. specialize (H q Hq).
  by apply bool_decide_eq_true in H.
Qed.

Section simulation.
Variable ps : list (loc * loc).
Hypothesis Hps : one_to_one ps = true.

Lemma sim_ret {A B} (R : A -> B -> Prop) (a : A) (b : B) :
  R a b -> sim ps R (ret a) (ret b).
Proof. by intros HR h1 h2 Hh. Qed.

Lemma sim_lift {A B} (R : A -> B -> Prop) (r1 : result A) (r2 : result B) :
  result_rel R r1 r2 -> sim ps R (lift r1) (lift r2).
Proof. by intros HR h1 h2 Hh. Qed.

Lemma sim_bind {A B A' B'} (R : A -> B -> Prop) (R' : A' -> B' -> Prop)
    (c1 : M A) (c2 : M B) (k1 : A -> M A') (k2 : B -> M B') :
  sim ps R c1 c2 ->
  (forall a b, R a b -> sim ps R' (k1 a) (k2 b)) ->
  sim ps R' (bind c1 k1) (bind c2 k2).
Proof.
  intros Hc Hk h1 h2 Hh. destruct (Hc h1 h2 Hh) as [Hr Hh'].
  unfold bind.
  destruct (c1 h1) as [[a|e1] h1'], (c2 h2) as [[b|e2] h2']; simpl in *;
    try done.
  by apply Hk.
Qed.

Lemma sim_Wheel_advance (a b : loc) :
  (a, b) ∈ ps -> sim ps eq (Wheel_advance a) (Wheel_advance b).
Proof.
  intros Hin h1 h2 Hh. pose proof (Hh _ Hin) as Hab.
  unfold same_ref in Hab. simpl in Hab. rewrite !Wheel_advance_unfold.
  destruct (h1 !! a) as [w1|] eqn:E1, (h2 !! b) as [w2|] eqn:E2; try done.
  pose proof (same_wheel_inv _ _ Hab) as (_ & Hs & _). rewrite <- Hs.
  destruct (wheel_size w1 =? 0); [done|]. simpl. split; [done|].
  intros [c d] Hq. unfold same_ref. simpl.
  pose proof (one_to_one_inv ps Hps _ _ Hq Hin) as Hiff. simpl in Hiff.
  destruct (decide (c = a)) as [-> | Hne].
  - rewrite (proj1 Hiff eq_refl).
    rewrite !list_lookup_insert_eq by (by eapply lookup_lt_Some).
    by apply same_wheel_advanced.
  - assert (d <> b) by (intros ->%Hiff; done).
    rewrite !list_lookup_insert_ne by done. apply (Hh _ Hq).
Qed.

Lemma sim_Wheel_get_current_value (a b : loc) :
  (a, b) ∈ ps ->
  sim ps eq (Wheel_get_current_value a) (Wheel_get_current_value b).
Proof.
  intros Hin h1 h2 Hh. pose proof (Hh _ Hin) as Hab.
  unfold same_ref in Hab. simpl in Hab.
  rewrite !Wheel_get_current_value_unfold.
  destruct (h1 !! a) as [w1|] eqn:E1, (h2 !! b) as [w2|] eqn:E2; try done.
  pose proof (same_wheel_inv _ _ Hab) as (Hd & _ & Hp). rewrite Hd, Hp.
  simpl. split; [|done]. by apply result_rel_eq.
Qed.

Lemma sim_for_each {A B} (P : A -> B -> Prop) (f1 : A -> M unit)
    (f2 : B -> M unit) (xs1 : list A) (xs2 : list B) :
  (forall a b, P a b -> sim ps eq (f1 a) (f2 b)) ->
  Forall2 P xs1 xs2 ->
  sim ps eq (for_each f1 xs1) (for_each f2 xs2).
Proof.
  intros Hf HF. induction HF as [|a b xs1 xs2 Hab _ IH]; simpl.
  - by apply sim_ret.
  - eapply sim_bind; [by apply Hf|]. intros _ _ _. apply IH.
Qed.

Lemma sim_comprehension {A B C} (P : A -> B -> Prop) (f1 : A -> M C)
    (f2 : B -> M C) (xs1 : list A) (xs2 : list B) :
  (forall a b, P a b -> sim ps eq (f1 a) (f2 b)) ->
  Forall2 P xs1 xs2 ->
  sim ps eq (comprehension f1 xs1) (comprehension f2 xs2).
Proof.
  intros Hf HF. induction HF as [|a b xs1 xs2 Hab _ IH]; simpl.
  - by apply sim_ret.
  - eapply sim_bind; [by apply Hf|]. intros y ? <-.
    eapply sim_bind; [apply IH|]. intros ys ? <-. by apply sim_ret.
Qed.

Lemma py_getitem_related {A B} (P : A -> B -> Prop) (xs1 : list A)
    (xs2 : list B) (i : Z) :
  Forall2 P xs1 xs2 -> result_rel P (py_getitem xs1 i) (py_getitem xs2 i).
Proof.
  intros HF. unfold py_getitem. rewrite <- (Forall2_length _ _ _ HF).
  set (j := if i <? 0 then i + Z.of_nat (length xs1) else i).
  destruct (j <? 0); [done|].
  pose proof (proj1 (Forall2_lookup P xs1 xs2) HF (Z.to_nat j)) as Hj.
  by destruct Hj.
Qed.

Lemma sim_WheelSet_advance (ws1 ws2 : list loc) :
  Forall2 (fun a b => (a, b) ∈ ps) ws1 ws2 ->
  sim ps eq (WheelSet_advance ws1) (WheelSet_advance ws2).
Proof.
  apply sim_for_each. intros a b. apply sim_Wheel_advance.
Qed.

Lemma sim_WheelSet_get_current_value (ws1 ws2 : list loc) :
  Forall2 (fun a b => (a, b) ∈ ps) ws1 ws2 ->
  sim ps eq (WheelSet_get_current_value ws1) (WheelSet_get_current_value ws2).
Proof.
  intros HF. unfold WheelSet_get_current_value.
  eapply sim_bind.
  - eapply sim_comprehension; [|exact HF].
    intros a b. apply sim_Wheel_get_current_value.
  - intros bits ? <-. apply sim_lift. by apply result_rel_eq.
Qed.

Lemma sim_MotorWheelSet_advance (ws1 ws2 : list loc) :
  Forall2 (fun a b => (a, b) ∈ ps) ws1 ws2 ->
  sim ps eq (MotorWheelSet_advance ws1) (MotorWheelSet_advance ws2).
Proof.
  intros HF. unfold MotorWheelSet_advance.
  eapply sim_bind; [apply sim_lift, (py_getitem_related _ _ _ _ HF)|].
  intros a b Hab. eapply sim_bind; [by apply sim_Wheel_advance|].
  intros _ _ _.
  eapply sim_bind; [apply sim_lift, (py_getitem_related _ _ _ _ HF)|].
  intros a' b' Hab'.
  eapply sim_bind; [by apply sim_Wheel_get_current_value|].
  intros v ? <-. destruct (v =? 1); [|by apply sim_ret].
  eapply sim_bind; [apply sim_lift, (py_getitem_related _ _ _ _ HF)|].
  intros a1 b1 Hab1. by apply sim_Wheel_advance.
Qed.

Lemma sim_MotorWheelSet_is_active (ws1 ws2 : list loc) :
  Forall2 (fun a b => (a, b) ∈ ps) ws1 ws2 ->
  sim ps eq (MotorWheelSet_is_active ws1) (MotorWheelSet_is_active ws2).
Proof.
  intros HF. unfold MotorWheelSet_is_active.
  eapply sim_bind; [apply sim_lift, (py_getitem_related _ _ _ _ HF)|].
  intros a b Hab.
  eapply sim_bind; [by apply sim_Wheel_get_current_value|].
  intros v ? <-. by apply sim_ret.
Qed.

Lemma sim_advance (b1 b2 : WheelSet) :
  related_banks ps b1 b2 -> sim ps eq (advance b1) (advance b2).
Proof.
  intros [Hc HF]. unfold advance. rewrite <- Hc.
  destruct (bank_cls b1);
    [by apply sim_WheelSet_advance | by apply sim_MotorWheelSet_advance].
Qed.

Lemma sim_get_current_value (b1 b2 : WheelSet) :
  related_banks ps b1 b2 ->
  sim ps eq (get_current_value b1) (get_current_value b2).
Proof. intros [_ HF]. by apply sim_WheelSet_get_current_value. Qed.

Lemma sim_is_active (b1 b2 : WheelSet) :
  related_banks ps b1 b2 -> sim ps eq (is_active b1) (is_active b2).
Proof.
  intros [Hc HF]. unfold is_active. rewrite <- Hc.
  destruct (bank_cls b1); [|by apply sim_MotorWheelSet_is_active].
  by intros h1 h2 Hh.
Qed.

Section machines.
Variables m1 m2 : LorenzMachine.
Hypothesis Hk : related_banks ps (k_set m1) (k_set m2).
Hypothesis Hs : related_banks ps (s_set m1) (s_set m2).
Hypothesis Hm : related_banks ps (m_set m1) (m_set m2).

Lemma sim_LorenzMachine_advance :
  sim ps eq (LorenzMachine_advance m1) (LorenzMachine_advance m2).
Proof.
  unfold LorenzMachine_advance.
  eapply sim_bind; [by apply sim_advance|]. intros _ _ _.
  eapply sim_bind; [by apply sim_advance|]. intros _ _ _.
  eapply sim_bind; [by apply sim_is_active|]. intros a ? <-.
  destruct a; [by apply sim_advance | by apply sim_ret].
Qed.

Lemma sim_encrypt_character (char : Z) :
  sim ps eq (encrypt_character m1 char) (encrypt_character m2 char).
Proof.
  unfold encrypt_character.
  eapply sim_bind; [by apply sim_get_current_value|]. intros k ? <-.
  eapply sim_bind; [by apply sim_get_current_value|]. intros s ? <-.
  eapply sim_bind; [apply sim_LorenzMachine_advance|]. intros _ _ _.
  by apply sim_ret.
Qed.

Lemma sim_encrypted_message (message : list Z) :
  sim ps eq (encrypted_message m1 message) (encrypted_message m2 message).
Proof.
  unfold encrypted_message.
  apply (sim_comprehension eq).
  - intros c ? <-. apply sim_encrypt_character.
  - by apply Forall_Forall2_diag, Forall_forall.
Qed.

Lemma sim_encrypt_message (message : list Z) :
  sim ps eq (encrypt_message m1 message) (encrypt_message m2 message).
Proof.
  unfold encrypt_message.
  eapply sim_bind; [apply sim_encrypted_message|]. intros nums ? <-.
  by apply sim_ret.
Qed.
End machines.
End simulation.

(** ** From [same_config] to the simulation *)

Lemma Forall2_zip_elem {A B} (ps : list (A * B)) (l : list A) (k : list B) :
  length l = length k ->
  (forall p, p ∈ zip l k -> p ∈ ps) ->
  Forall2 (fun a b => (a, b) ∈ ps) l k.
Proof.
  revert k. induction l as [|a l IH]; intros [|b k] Hlen Hsub; try done.
  constructor.
  - apply Hsub. simpl. left.
  - apply IH; [by injection Hlen|]. intros p Hp. apply Hsub. simpl. by right.
Qed.

Lemma same_bank_shape_inv (b1 b2 : WheelSet) :
  same_bank_shape b1 b2 = true ->
  bank_cls b1 = bank_cls b2 /\ length (wheels b1) = length (wheels b2).
Proof.
  unfold same_bank_shape. rewrite andb_true_iff, Nat.eqb_eq. intros [Hc Hl].
  split; [|done]. by destruct (bank_cls b1), (bank_cls b2).
Qed.

Lemma paired_refs_split (m1 m2 : LorenzMachine) :
  length (wheels (k_set m1)) = length (wheels (k_set m2)) ->
  length (wheels (s_set m1)) = length (wheels (s_set m2)) ->
  paired_refs m1 m2 =
    (zip (wheels (k_set m1)) (wheels (k_set m2))
     ++ zip (wheels (s_set m1)) (wheels (s_set m2))
     ++ zip (wheels (m_set m1)) (wheels (m_set m2)))%list.
Proof.
  intros Hk Hs. unfold paired_refs, machine_refs.
  rewrite zip_with_app by done. by rewrite zip_with_app by done.
Qed.

Lemma same_config_inv (m1 : LorenzMachine) (h1 : heap)
    (m2 : LorenzMachine) (h2 : heap) :
  same_config m1 h1 m2 h2 = true ->
  one_to_one (paired_refs m1 m2) = true
  /\ heap_rel (paired_refs m1 m2) h1 h2
  /\ related_banks (paired_refs m1 m2) (k_set m1) (k_set m2)
  /\ related_banks (paired_refs m1 m2) (s_set m1) (s_set m2)
  /\ related_banks (paired_refs m1 m2) (m_set m1) (m_set m2).
Proof.
  unfold same_config. rewrite !andb_true_iff.
  intros [[[[(Ck & Lk)%same_bank_shape_inv (Cs & Ls)%same_bank_shape_inv]
              (Cm & Lm)%same_bank_shape_inv] H11] Hrel].
  split; [done|]. split.
  { intros p Hp. rewrite forallb_forall in Hrel. apply Hrel.
    by apply list_elem_of_In. }
  rewrite (paired_refs_split m1 m2 Lk Ls).
  repeat split; try done; apply Forall2_zip_elem; try done;
    intros p Hp; rewrite !elem_of_app; tauto.
Qed.

Lemma same_config_heap_rel (m1 : LorenzMachine) (h1 h1' : heap)
    (m2 : LorenzMachine) (h2 h2' : heap) :
  same_config m1 h1 m2 h2 = true ->
  heap_rel (paired_refs m1 m2) h1' h2' ->
  same_config m1 h1' m2 h2' = true.
Proof.
  unfold same_config. rewrite !andb_true_iff.
  intros [[[[Hk Hs] Hm] H11] _] Hrel. repeat split; try done.
  rewrite forallb_forall. intros p Hp. apply Hrel. by apply list_elem_of_In.
Qed.

(** ** XOR with the same keystream twice *)

Lemma lxor_twice (c k s : Z) :
  Z.lxor (Z.lxor (Z.lxor (Z.lxor c k) s) k) s = c.
Proof.
  rewrite (Z.lxor_assoc _ k s), (Z.lxor_assoc c k s), Z.lxor_assoc.
  by rewrite Z.lxor_nilpotent, Z.lxor_0_r.
Qed.

Lemma encrypt_character_involutive (m : LorenzMachine) (c r : Z) (h h' : heap) :
  encrypt_character m c h = (Ok r, h') ->
  encrypt_character m r h = (Ok c, h').
Proof.
  unfold encrypt_character, bind.
  destruct (get_current_value (k_set m) h) as [[k|e] h1]; [|done].
  destruct (get_current_value (s_set m) h1) as [[s|e] h2]; [|done].
  destruct (LorenzMachine_advance m h2) as [[[]|e] h3]; [|done].
  unfold ret. intros [= <- <-]. by rewrite lxor_twice.
Qed.

Lemma encrypted_message_involutive (m : LorenzMachine) (message : list Z) :
  forall (h h' : heap) (out : list Z),
  encrypted_message m message h = (Ok out, h') ->
  encrypted_message m out h = (Ok message, h').
Proof.
  unfold encrypted_message.
  induction message as [|c cs IH]; intros h h' out; simpl.
  - unfold ret. by intros [= <- <-].
  - unfold bind at 1.
    destruct (encrypt_character m c h) as [[r|e] h1] eqn:E1; [|done].
    unfold bind at 1.
    destruct (comprehension (encrypt_character m) cs h1) as [[rs|e] h2] eqn:E2;
      [|done].
    unfold ret. intros [= <- <-]. simpl.
    erewrite bind_ok by (by apply encrypt_character_involutive).
    by erewrite bind_ok by (by apply IH).
Qed.

Lemma encrypted_message_length (m : LorenzMachine) (message : list Z) :
  forall (h h' : heap) (out : list Z),
  encrypted_message m message h = (Ok out, h') ->
  length out = length message.
Proof.
  unfold encrypted_message.
  induction message as [|c cs IH]; intros h h' out; simpl.
  - unfold ret. by intros [= <- <-].
  - unfold bind at 1.
    destruct (encrypt_character m c h) as [[r|e] h1]; [|done].
    unfold bind at 1.
    destruct (comprehension (encrypt_character m) cs h1) as [[rs|e] h2] eqn:E2;
      [|done].
    unfold ret. intros [= <- <-]. simpl. f_equal. by eapply IH.
Qed.

(** C1. Self-inverse round trip.  Take two engines constructed
    identically (same_config: banks of the same shape, corresponding wheels
    with the same pattern, size and position).  Whatever the codes, if
    encrypting them symbol by symbol on the first engine yields [out], then
    encrypting [out] on the second engine yields the codes again; and on a
    valid engine the first run does yield an output, of the same length. *)
Theorem C1_round_trip (m1 : LorenzMachine) (h1 : heap)
    (m2 : LorenzMachine) (h2 : heap) (message : list Z) :
  same_config m1 h1 m2 h2 = true ->
  (forall out h1',
      encrypted_message m1 message h1 = (Ok out, h1') ->
      exists h2', encrypted_message m2 out h2 = (Ok message, h2'))
  /\ (valid_machine m1 h1 = true ->
      exists out h1' h2',
        encrypted_message m1 message h1 = (Ok out, h1')
        /\ length out = length message
        /\ encrypted_message m2 out h2 = (Ok message, h2')).
Proof.
  intros Hc.
  pose proof (same_config_inv _ _ _ _ Hc) as (H11 & Hrel & Hk & Hs & Hm).
  assert (Hrt : forall out h1',
    encrypted_message m1 message h1 = (Ok out, h1') ->
    exists h2', encrypted_message m2 out h2 = (Ok message, h2')).
  { intros out h1' E. apply encrypted_message_involutive in E.
    destruct (sim_encrypted_message _ H11 m1 m2 Hk Hs Hm out h1 h2 Hrel)
      as [Hr _].
    rewrite E in Hr. simpl in Hr.
    destruct (encrypted_message m2 out h2) as [[x|e] h2']; [|done].
    simpl in Hr. subst x. by exists h2'. }
  split; [exact Hrt|].
  intros Hv.
  destruct (encrypted_message_spec m1 message h1 Hv)
    as (out & h1' & E & _ & Hlen & _).
  destruct (Hrt out h1' E) as (h2' & E2).
  by exists out, h1', h2'.
Qed.

Lemma C1_round_trip_witness :
  exists out h1' h2',
    encrypted_message demo_machine [0; 3] demo_heap = (Ok out, h1')
    /\ length out = 2%nat
    /\ encrypted_message demo_machine out demo_heap = (Ok [0; 3], h2').
Proof.
  exact (proj2 (C1_round_trip demo_machine demo_heap demo_machine demo_heap
                  [0; 3] eq_refl) eq_refl).
Defined.

(** ** What a run can touch *)

Lemma frames_pure {A} (L : list loc) (c : M A) :
  (forall h, (c h).2 = h) -> frames L c.
Proof. intros Hc h. by rewrite Hc. Qed.

Lemma frames_bind {A B} (L : list loc) (c : M A) (k : A -> M B) :
  frames L c ->
  (forall a h h', c h = (Ok a, h') -> frames L (k a)) ->
  frames L (bind c k).
Proof.
  intros Hc Hk h. destruct (Hc h) as [Hlen Hout]. unfold bind.
  destruct (c h) as [[a|e] h'] eqn:E; simpl in *; [|done].
  destruct (Hk a h h' E h') as [Hlen' Hout']. split; [congruence|].
  intros l Hl. rewrite Hout' by done. by apply Hout.
Qed.

Lemma frames_Wheel_advance (L : list loc) (l : loc) :
  l ∈ L -> frames L (Wheel_advance l).
Proof.
  intros Hl h. rewrite Wheel_advance_unfold.
  destruct (h !! l) as [w|]; [|done].
  destruct (wheel_size w =? 0); [done|]. simpl.
  split; [apply length_insert|].
  intros l' Hl'. apply list_lookup_insert_ne. by intros ->.
Qed.

Lemma frames_for_each {A} (L : list loc) (f : A -> M unit) (xs : list A) :
  (forall x, x ∈ xs -> frames L (f x)) -> frames L (for_each f xs).
Proof.
  induction xs as [|x xs IH]; intros Hf; simpl; [by apply frames_pure|].
  apply frames_bind; [apply Hf; left|].
  intros _ _ _ _. apply IH. intros y Hy. apply Hf. by right.
Qed.

Lemma frames_comprehension {A B} (L : list loc) (f : A -> M B) (xs : list A) :
  (forall x, frames L (f x)) -> frames L (comprehension f xs).
Proof.
  intros Hf. induction xs as [|x xs IH]; simpl; [by apply frames_pure|].
  apply frames_bind; [apply Hf|]. intros y _ _ _.
  apply frames_bind; [apply IH|]. intros ys _ _ _. by apply frames_pure.
Qed.

Lemma py_getitem_elem {A} (xs : list A) (i : Z) (x : A) :
  py_getitem xs i = Ok x -> x ∈ xs.
Proof.
  unfold py_getitem.
  destruct (_ <? 0); [done|].
  destruct (xs !! _) as [y|] eqn:E; [|done].
  intros [= <-]. by eapply list_elem_of_lookup_2.
Qed.

Lemma frames_advance (L : list loc) (b : WheelSet) :
  (forall l, l ∈ wheels b -> l ∈ L) -> frames L (advance b).
Proof.
  intros Hsub. unfold advance. destruct (bank_cls b).
  - apply frames_for_each. intros l Hl. by apply frames_Wheel_advance, Hsub.
  - unfold MotorWheelSet_advance.
    apply frames_bind; [by apply frames_pure|]. intros w0 h h' E0.
    apply frames_bind.
    { apply frames_Wheel_advance, Hsub. unfold lift in E0.
      injection E0 as E0 _. by eapply py_getitem_elem. }
    intros _ _ _ _. apply frames_bind; [by apply frames_pure|]. intros w0' _ _ _.
    apply frames_bind.
    { apply frames_pure. apply Wheel_get_current_value_pure. }
    intros v _ _ _. destruct (v =? 1); [|by apply frames_pure].
    apply frames_bind; [by apply frames_pure|]. intros w1 h1 h1' E1.
    apply frames_Wheel_advance, Hsub. unfold lift in E1.
    injection E1 as E1 _. by eapply py_getitem_elem.
Qed.

Lemma frames_LorenzMachine_advance (m : LorenzMachine) :
  frames (machine_refs m) (LorenzMachine_advance m).
Proof.
  unfold LorenzMachine_advance, machine_refs.
  apply frames_bind; [apply frames_advance; intros l Hl; solve_elem|].
  intros _ _ _ _.
  apply frames_bind; [apply frames_advance; intros l Hl; solve_elem|].
  intros _ _ _ _.
  apply frames_bind; [apply frames_pure, is_active_pure|].
  intros a _ _ _. destruct a; [|by apply frames_pure].
  apply frames_advance; intros l Hl; solve_elem.
Qed.

Lemma frames_encrypt_character (m : LorenzMachine) (char : Z) :
  frames (machine_refs m) (encrypt_character m char).
Proof.
  unfold encrypt_character.
  apply frames_bind; [apply frames_pure, WheelSet_get_current_value_pure|].
  intros k _ _ _.
  apply frames_bind; [apply frames_pure, WheelSet_get_current_value_pure|].
  intros s _ _ _.
  apply frames_bind; [apply frames_LorenzMachine_advance|].
  intros _ _ _ _. by apply frames_pure.
Qed.

Lemma frames_encrypt_message (m : LorenzMachine) (message : list Z) :
  frames (machine_refs m) (encrypt_message m message).
Proof.
  unfold encrypt_message, encrypted_message.
  apply frames_bind.
  - apply frames_comprehension. intros c. apply frames_encrypt_character.
  - intros nums _ _ _. by apply frames_pure.
Qed.

Lemma elem_of_zip_both {A B} (l : list A) (k : list B) (a : A) (b : B) :
  (a, b) ∈ zip l k -> a ∈ l /\ b ∈ k.
Proof.
  revert k. induction l as [|x l IH]; intros [|y k]; simpl;
    try (by intros ?%elem_of_nil).
  intros [[= -> ->] | H]%elem_of_cons.
  - split; left.
  - destruct (IH k H). split; by right.
Qed.

(** C9. Determinism.  Two engines constructed identically (same_config),
    in heaps of their own or side by side in one heap, give for the same
    message the same list of encrypted codes and the same output string (or
    raise the same exception), and are again in identical configurations
    afterwards.  When both live in one heap and hold different wheel
    objects, running the second engine after the first one still gives what
    the first one gave: a run touches no object but the engine's own
    wheels. *)
Theorem C9_determinism (m1 : LorenzMachine) (h1 : heap)
    (m2 : LorenzMachine) (h2 : heap) (message : list Z) :
  same_config m1 h1 m2 h2 = true ->
  (encrypted_message m1 message h1).1 = (encrypted_message m2 message h2).1
  /\ (encrypt_message m1 message h1).1 = (encrypt_message m2 message h2).1
  /\ same_config m1 (encrypt_message m1 message h1).2
                 m2 (encrypt_message m2 message h2).2 = true
  /\ (h1 = h2 ->
      (forall l, l ∈ machine_refs m1 -> l ∉ machine_refs m2) ->
      (encrypt_message m2 message (encrypt_message m1 message h1).2).1
      = (encrypt_message m1 message h1).1).
Proof.
  intros Hc.
  pose proof (same_config_inv _ _ _ _ Hc) as (H11 & Hrel & Hk & Hs & Hm).
  destruct (sim_encrypted_message _ H11 m1 m2 Hk Hs Hm message h1 h2 Hrel)
    as [Hr1 _].
  destruct (sim_encrypt_message _ H11 m1 m2 Hk Hs Hm message h1 h2 Hrel)
    as [Hr2 Hrel2].
  apply result_rel_eq in Hr1, Hr2.
  split; [done|]. split; [done|]. split; [by eapply same_config_heap_rel|].
  intros <- Hdisj.
  destruct (frames_encrypt_message m1 message h1) as [_ Hout].
  assert (Hrel' : heap_rel (paired_refs m1 m2) h1 (encrypt_message m1 message h1).2).
  { intros [a b] Hp. pose proof (Hrel _ Hp) as Hab.
    unfold same_ref in *. simpl in *. rewrite Hout; [done|].
    destruct (elem_of_zip_both _ _ _ _ Hp) as [Ha Hb].
    intros Hb'. by apply (Hdisj b). }
  destruct (sim_encrypt_message _ H11 m1 m2 Hk Hs Hm message _ _ Hrel')
    as [Hr3 _].
  by apply result_rel_eq in Hr3.
Qed.

Lemma C9_determinism_witness :
  let h := (demo_heap ++ demo_heap)%list in
  let m2 := mkLorenzMachine (mkWheelSet PlainBank [6; 7]%nat)
                            (mkWheelSet PlainBank [8; 9]%nat)
                            (mkWheelSet MotorBank [10; 11]%nat) in
  (encrypt_message demo_machine [0; 3] h).1 = (encrypt_message m2 [0; 3] h).1.
Proof.
  intros h m2.
  exact (proj1 (proj2 (C9_determinism demo_machine h m2 h [0; 3] eq_refl))).
Defined.

(** ** The message as a whole *)

Lemma encrypt_message_unfold (m : LorenzMachine) (message : list Z) (h : heap) :
  encrypt_message m message h =
  match encrypted_message m message h with
  | (Ok nums, h') => (Ok ("0b" ++ py_join (map format_05b nums))%string, h')
  | (Raise e, h') => (Raise e, h')
  end.
Proof. done. Qed.

(** C6, as the code has it.  [encrypt_message] does not return the list of
    encrypted codes but its rendering as one string: the list it builds
    first has one code per input code, in order, and the value returned is
    0b followed by the [{0:05b}] rendering of each code.  From a valid state
    it always returns.  On the empty message it returns the string 0b and
    leaves the heap untouched (no advance at all). *)
Theorem C6_encrypt_message (m : LorenzMachine) (h : heap) (message : list Z) :
  (forall out h',
      encrypt_message m message h = (Ok out, h') ->
      exists nums,
        encrypted_message m message h = (Ok nums, h')
        /\ length nums = length message
        /\ out = ("0b" ++ py_join (map format_05b nums))%string)
  /\ (valid_machine m h = true ->
      exists out h', encrypt_message m message h = (Ok out, h'))
  /\ encrypt_message m [] h = (Ok "0b"%string, h).
Proof.
  split; [|split; [|done]].
  - intros out h'. rewrite encrypt_message_unfold.
    destruct (encrypted_message m message h) as [[nums|e] h1] eqn:E; [|done].
    intros [= <- <-]. exists nums. split; [done|]. split; [|done].
    by eapply encrypted_message_length.
  - intros Hv. rewrite encrypt_message_unfold.
    destruct (encrypted_message_spec m message h Hv) as (nums & hN & E & _).
    rewrite E. by eexists _, _.
Qed.

Lemma C6_encrypt_message_witness :
  exists out h', encrypt_message demo_machine [0; 3] demo_heap = (Ok out, h').
Proof.
  exact (proj1 (proj2 (C6_encrypt_message demo_machine demo_heap [0; 3])) eq_refl).
Defined.

(** C6 as stated fails: on the empty message the value returned is the
    two-character string 0b, not an empty sequence; on the two codes 0, 3 of
    the spec's scenario it is a string of twelve characters, not a sequence
    of two integers. *)
Lemma C6_counterexample :
  encrypt_message demo_machine [] demo_heap = (Ok "0b"%string, demo_heap)
  /\ String.length "0b" <> length (@nil Z)
  /\ (exists h', encrypt_message demo_machine [0; 3] demo_heap
                 = (Ok "0b0000000010"%string, h'))
  /\ String.length "0b0000000010" <> length [0; 3].
Proof.
  split; [reflexivity|]. split; [discriminate|].
  split; [eexists; reflexivity|discriminate].
Qed.

(** ** Construction *)

(** C7, as the code has it.  Construction validates nothing and never
    fails: [Wheel] stores the name, size, position and pattern it is given,
    whatever they are, in a new object; a bank stores any tuple of wheels; a
    machine stores any three banks.  What is wrong shows only in use: a
    wheel of size 0 raises ZeroDivisionError at its first advance, and an
    empty bank raises ValueError when its value is read. *)
Theorem C7_construction_total (name : string) (size pos : Z) (data : list Z)
    (ws : list loc) (k s mo : WheelSet) (h : heap) :
  Wheel_init name size pos data h
    = (Ok (length h), (h ++ [mkWheel name data size pos])%list)
  /\ (h ++ [mkWheel name data size pos])%list !! length h
    = Some (mkWheel name data size pos)
  /\ WheelSet_init ws h = (Ok (mkWheelSet PlainBank ws), h)
  /\ MotorWheelSet_init ws h = (Ok (mkWheelSet MotorBank ws), h)
  /\ LorenzMachine_init k s mo h = (Ok (mkLorenzMachine k s mo), h)
  /\ Wheel_advance (length h) (h ++ [mkWheel name data 0 pos])%list
    = (Raise ZeroDivisionError, (h ++ [mkWheel name data 0 pos])%list)
  /\ WheelSet_get_current_value [] h = (Raise ValueError, h).
Proof.
  split; [done|]. split; [by apply list_lookup_middle|].
  do 3 (split; [done|]). split; [|done].
  rewrite Wheel_advance_unfold. by rewrite list_lookup_middle.
Qed.

(** C7 as stated fails: a wheel of size 0 with a pattern of length 1 that
    holds the value 2 and with position 7 is constructed, and so are empty K
    and S banks, a motor bank of three wheels, and the machine made of
    them. *)
Lemma C7_counterexample :
  let bad := mkWheel "w" [2] 0 7 in
  Wheel_init "w" 0 7 [2] [] = (Ok 0%nat, [bad])
  /\ WheelSet_init [] [bad] = (Ok (mkWheelSet PlainBank []), [bad])
  /\ MotorWheelSet_init [0; 0; 0]%nat [bad]
     = (Ok (mkWheelSet MotorBank [0; 0; 0]%nat), [bad])
  /\ LorenzMachine_init (mkWheelSet PlainBank []) (mkWheelSet PlainBank [])
       (mkWheelSet MotorBank [0; 0; 0]%nat) [bad]
     = (Ok (mkLorenzMachine (mkWheelSet PlainBank []) (mkWheelSet PlainBank [])
              (mkWheelSet MotorBank [0; 0; 0]%nat)), [bad]).
Proof. repeat split. Qed.

(** * Further properties of the engine *)

(** ** Banks are periodic *)

Lemma valid_bank_sizes (h : heap) (ws : list loc) :
  valid_bank h ws = true ->
  forall l, l ∈ ws -> exists w, h !! l = Some w /\ wheel_size w <> 0.
Proof.
  intros Hv l Hl.
  destruct (valid_ref_inv h l (valid_bank_elem _ _ _ Hv Hl)) as (w & E & Hw).
  exists w. split; [done|]. pose proof (valid_wheel_inv w Hw). lia.
Qed.

Lemma WheelSet_advance_repeat (ws : list loc) (n : nat) :
  NoDup ws ->
  forall h, valid_bank h ws = true ->
  exists hn,
    repeat_m n (WheelSet_advance ws) h = (Ok tt, hn)
    /\ length hn = length h
    /\ (forall l w, l ∈ ws -> h !! l = Some w ->
          hn !! l = Some (set_current_position w
            ((current_position w + Z.of_nat n) mod wheel_size w)))
    /\ (forall l, l ∉ ws -> hn !! l = h !! l).
Proof.
  intros Hnd. induction n as [|n IH]; intros h Hv.
  - exists h. split; [done|]. split; [done|]. split; [|done].
    intros l w Hl E.
    destruct (valid_ref_inv h l (valid_bank_elem _ _ _ Hv Hl)) as (w' & E' & Hw).
    replace w' with w in Hw by congruence.
    pose proof (valid_wheel_inv w Hw) as (_ & _ & _ & Hp).
    rewrite Z.add_0_r, Z.mod_small by done.
    by rewrite set_current_position_same.
  - destruct (WheelSet_advance_spec ws h Hnd (valid_bank_sizes h ws Hv))
      as (h1 & A & Hlen & Hin & Hout).
    assert (Hv1 : valid_bank h1 ws = true).
    { apply valid_bank_intro. intros l Hl.
      destruct (valid_ref_inv h l (valid_bank_elem _ _ _ Hv Hl)) as (w & E & Hw).
      unfold valid_ref. rewrite (Hin l w Hl E). by apply valid_wheel_advanced. }
    destruct (IH h1 Hv1) as (hn & R & Hlen' & Hin' & Hout').
    exists hn. split; [|split; [congruence|split]].
    + simpl. by erewrite bind_ok by exact A.
    + intros l w Hl E. rewrite (Hin' l (advanced w) Hl (Hin l w Hl E)). cbn.
      rewrite Zplus_mod_idemp_l. do 3 f_equal. lia.
    + intros l Hl. rewrite Hout' by done. by apply Hout.
Qed.

(** X1.  A bank of distinct valid wheels advanced n times has every wheel
    at (position + n) mod size and nothing else changed; when n is a
    multiple of every wheel size the heap is exactly what it was, so the
    bank's value sequence repeats with that period. *)
Theorem X1_bank_period (ws : list loc) (h : heap) (n : nat) :
  NoDup ws ->
  valid_bank h ws = true ->
  (exists hn,
      repeat_m n (WheelSet_advance ws) h = (Ok tt, hn)
      /\ (forall l w, l ∈ ws -> h !! l = Some w ->
            hn !! l = Some (set_current_position w
              ((current_position w + Z.of_nat n) mod wheel_size w)))
      /\ (forall l, l ∉ ws -> hn !! l = h !! l))
  /\ (bank_period h ws n = true ->
      repeat_m n (WheelSet_advance ws) h = (Ok tt, h)).
Proof.
  intros Hnd Hv.
  destruct (WheelSet_advance_repeat ws n Hnd h Hv) as (hn & R & Hlen & Hin & Hout).
  split; [by exists hn|].
  intros Hper. rewrite R. f_equal. apply list_eq. intros l.
  destruct (decide (l ∈ ws)) as [Hl|Hl]; [|by apply Hout].
  destruct (valid_ref_inv h l (valid_bank_elem _ _ _ Hv Hl)) as (w & E & Hw).
  rewrite (Hin l w Hl E), E. f_equal.
  pose proof (valid_wheel_inv w Hw) as (Hs & _ & _ & Hp).
  unfold bank_period in Hper. rewrite forallb_forall in Hper.
  specialize (Hper l (proj1 (list_elem_of_In _ _) Hl)). rewrite E in Hper.
  apply Z.eqb_eq in Hper.
  rewrite <- Zplus_mod_idemp_r, Hper, Z.add_0_r, Z.mod_small by done.
  apply set_current_position_same.
Qed.

Lemma X1_bank_period_witness :
  repeat_m 6 (WheelSet_advance [0; 2]%nat) demo_heap = (Ok tt, demo_heap).
Proof.
  apply (X1_bank_period [0; 2]%nat demo_heap 6); [|reflexivity|reflexivity].
  apply (bool_decide_eq_true_1 (NoDup [0; 2]%nat)). reflexivity.
Defined.

(** ** Only positions ever change *)

Lemma keeps_wheels_pure {A} (c : M A) :
  (forall h, (c h).2 = h) -> keeps_wheels c.
Proof. intros Hc h. rewrite Hc. split; [done|]. intros l w E. by exists w. Qed.

Lemma keeps_wheels_bind {A B} (c : M A) (k : A -> M B) :
  keeps_wheels c -> (forall a, keeps_wheels (k a)) -> keeps_wheels (bind c k).
Proof.
  intros Hc Hk h. destruct (Hc h) as [Hlen Hw]. unfold bind.
  destruct (c h) as [[a|e] h'] eqn:E; simpl in *; [|done].
  destruct (Hk a h') as [Hlen' Hw']. split; [congruence|].
  intros l w El. destruct (Hw l w El) as (w1 & E1 & N1 & D1 & S1).
  destruct (Hw' l w1 E1) as (w2 & E2 & N2 & D2 & S2).
  exists w2. repeat split; congruence.
Qed.

Lemma keeps_wheels_Wheel_advance (l : loc) : keeps_wheels (Wheel_advance l).
Proof.
  intros h. rewrite Wheel_advance_unfold.
  destruct (h !! l) as [w|] eqn:E; [|by apply (keeps_wheels_pure (raise AttributeError))].
  destruct (wheel_size w =? 0);
    [by apply (keeps_wheels_pure (raise ZeroDivisionError))|].
  simpl. split; [apply length_insert|]. intros l' w' E'.
  destruct (decide (l' = l)) as [-> | Hne].
  - exists (advanced w). rewrite list_lookup_insert_eq by (by eapply lookup_lt_Some).
    replace w' with w by congruence. done.
  - exists w'. by rewrite list_lookup_insert_ne.
Qed.

Lemma keeps_wheels_for_each {A} (f : A -> M unit) (xs : list A) :
  (forall x, keeps_wheels (f x)) -> keeps_wheels (for_each f xs).
Proof.
  intros Hf. induction xs as [|x xs IH]; simpl; [by apply keeps_wheels_pure|].
  apply keeps_wheels_bind; [apply Hf|]. intros _. apply IH.
Qed.

Lemma keeps_wheels_comprehension {A B} (f : A -> M B) (xs : list A) :
  (forall x, keeps_wheels (f x)) -> keeps_wheels (comprehension f xs).
Proof.
  intros Hf. induction xs as [|x xs IH]; simpl; [by apply keeps_wheels_pure|].
  apply keeps_wheels_bind; [apply Hf|]. intros y.
  apply keeps_wheels_bind; [apply IH|]. intros ys. by apply keeps_wheels_pure.
Qed.

Lemma keeps_wheels_advance (b : WheelSet) : keeps_wheels (advance b).
Proof.
  unfold advance. destruct (bank_cls b).
  - apply keeps_wheels_for_each, keeps_wheels_Wheel_advance.
  - unfold MotorWheelSet_advance.
    apply keeps_wheels_bind; [by apply keeps_wheels_pure|]. intros w0.
    apply keeps_wheels_bind; [apply keeps_wheels_Wheel_advance|]. intros _.
    apply keeps_wheels_bind; [by apply keeps_wheels_pure|]. intros w0'.
    apply keeps_wheels_bind.
    { apply keeps_wheels_pure, Wheel_get_current_value_pure. }
    intros v. destruct (v =? 1); [|by apply keeps_wheels_pure].
    apply keeps_wheels_bind; [by apply keeps_wheels_pure|]. intros w1.
    apply keeps_wheels_Wheel_advance.
Qed.

Lemma keeps_wheels_LorenzMachine_advance (m : LorenzMachine) :
  keeps_wheels (LorenzMachine_advance m).
Proof.
  unfold LorenzMachine_advance.
  apply keeps_wheels_bind; [apply keeps_wheels_advance|]. intros _.
  apply keeps_wheels_bind; [apply keeps_wheels_advance|]. intros _.
  apply keeps_wheels_bind; [apply keeps_wheels_pure, is_active_pure|].
  intros a. destruct a; [apply keeps_wheels_advance|by apply keeps_wheels_pure].
Qed.

Lemma keeps_wheels_encrypt_character (m : LorenzMachine) (char : Z) :
  keeps_wheels (encrypt_character m char).
Proof.
  unfold encrypt_character.
  apply keeps_wheels_bind;
    [apply keeps_wheels_pure, WheelSet_get_current_value_pure|]. intros k.
  apply keeps_wheels_bind;
    [apply keeps_wheels_pure, WheelSet_get_current_value_pure|]. intros s.
  apply keeps_wheels_bind; [apply keeps_wheels_LorenzMachine_advance|].
  intros _. by apply keeps_wheels_pure.
Qed.

(** X2.  Encrypting never rewrites a wheel.  Whatever the machine, the
    heap and the message, and whether [encrypt_message] returns or raises
    part-way, afterwards the heap has the same objects, and every wheel has
    the name, pattern and size it had: only positions can have changed. *)
Theorem X2_only_positions_change (m : LorenzMachine) (message : list Z)
    (h : heap) (l : loc) (w : Wheel) :
  h !! l = Some w ->
  length (encrypt_message m message h).2 = length h
  /\ exists w',
       (encrypt_message m message h).2 !! l = Some w'
       /\ wheel_name w' = wheel_name w
       /\ wheel_data w' = wheel_data w
       /\ wheel_size w' = wheel_size w.
Proof.
  intros E.
  assert (K : keeps_wheels (encrypt_message m message)).
  { unfold encrypt_message, encrypted_message.
    apply keeps_wheels_bind.
    - apply keeps_wheels_comprehension. intros c.
      apply keeps_wheels_encrypt_character.
    - intros nums. by apply keeps_wheels_pure. }
  destruct (K h) as [Hlen Hw]. split; [done|]. by apply Hw.
Qed.

Lemma X2_only_positions_change_witness :
  exists w',
    (encrypt_message demo_machine [0; 3] demo_heap).2 !! 5%nat = Some w'
    /\ wheel_name w' = "m2"%string
    /\ wheel_data w' = [1; 1]
    /\ wheel_size w' = 2.
Proof.
  exact (proj2 (X2_only_positions_change demo_machine [0; 3] demo_heap 5%nat
                  (mkWheel "m2" [1; 1] 2 0) eq_refl)).
Defined.

(** ** Many machine steps *)

Lemma set_current_position_advanced (w : Wheel) (n : nat) :
  set_current_position (advanced w)
    ((current_position (advanced w) + Z.of_nat n) mod wheel_size (advanced w))
  = set_current_position w
      ((current_position w + Z.of_nat (S n)) mod wheel_size w).
Proof. cbn. rewrite Zplus_mod_idemp_l. do 2 f_equal. lia. Qed.

Lemma set_current_position_valid_0 (w : Wheel) :
  valid_wheel w = true ->
  set_current_position w
    ((current_position w + Z.of_nat 0) mod wheel_size w) = w.
Proof.
  intros Hw. pose proof (valid_wheel_inv w Hw) as (_ & _ & _ & Hp).
  rewrite Z.add_0_r, Z.mod_small by done. apply set_current_position_same.
Qed.

Lemma valid_machine_ref (m : LorenzMachine) (h : heap) (l : loc) :
  valid_machine m h = true -> l ∈ machine_refs m ->
  exists w, h !! l = Some w /\ valid_wheel w = true.
Proof.
  intros Hv Hl.
  pose proof (valid_machine_inv m h Hv) as (_ & _ & _ & _ & _ & _ & Hb & _).
  apply valid_ref_inv. by eapply valid_bank_elem.
Qed.

Lemma machine_steps (m : LorenzMachine) (n : nat) :
  forall h, valid_machine m h = true ->
  exists hn,
    repeat_m n (LorenzMachine_advance m) h = (Ok tt, hn)
    /\ valid_machine m hn = true
    /\ forall l w, l ∈ wheels (k_set m) -> h !! l = Some w ->
         hn !! l = Some (set_current_position w
           ((current_position w + Z.of_nat n) mod wheel_size w)).
Proof.
  induction n as [|n IH]; intros h Hv.
  - exists h. split; [done|]. split; [done|]. intros l w Hl E.
    destruct (valid_machine_ref m h l Hv) as (w' & E' & Hw);
      [unfold machine_refs; solve_elem|].
    replace w' with w in Hw by congruence.
    by rewrite set_current_position_valid_0.
  - destruct (LorenzMachine_advance_spec m h Hv)
      as (h1 & h2 & act & h3 & _ & _ & _ & _ & A & K & _ & Hstep).
    pose proof (valid_machine_preserved m h h3 Hv Hstep) as Hv3.
    destruct (IH h3 Hv3) as (hn & R & Hvn & Kn).
    exists hn. split; [|split; [done|]].
    + simpl. by erewrite bind_ok by exact A.
    + intros l w Hl E. rewrite (Kn l (advanced w) Hl (K l w Hl E)).
      by rewrite set_current_position_advanced.
Qed.

(** X3.  From a valid state any number of machine steps succeeds, the
    state stays valid, and the K wheels step regularly: after n steps a K
    wheel is at (position + n) mod size, whatever the motor wheels did. *)
Theorem X3_k_wheels_step_every_cycle (m : LorenzMachine) (h : heap) (n : nat) :
  valid_machine m h = true ->
  exists hn,
    repeat_m n (LorenzMachine_advance m) h = (Ok tt, hn)
    /\ valid_machine m hn = true
    /\ forall l w, l ∈ wheels (k_set m) -> h !! l = Some w ->
         hn !! l = Some (set_current_position w
           ((current_position w + Z.of_nat n) mod wheel_size w)).
Proof. intros Hv. by apply machine_steps. Qed.

Lemma X3_k_wheels_step_every_cycle_witness :
  exists hn,
    repeat_m 4 (LorenzMachine_advance demo_machine) demo_heap = (Ok tt, hn)
    /\ hn !! 1%nat = Some (mkWheel "k2" [0; 1; 1] 3 1).
Proof.
  destruct (X3_k_wheels_step_every_cycle demo_machine demo_heap 4 eq_refl)
    as (hn & R & _ & K).
  exists hn. split; [exact R|].
  apply (K 1%nat (mkWheel "k2" [0; 1; 1] 3 0)); [right; left|reflexivity].
Defined.

Lemma py_getitem_1 {A} (xs : list A) (x : A) :
  xs !! 1%nat = Some x -> py_getitem xs 1 = Ok x.
Proof.
  intros E. unfold py_getitem. change (1 <? 0) with false. cbv iota.
  change (Z.to_nat 1) with 1%nat. by rewrite E.
Qed.

Lemma is_active_constant (b : WheelSet) (l1 : loc) (h : heap) (w : Wheel) (v : Z) :
  bank_cls b = MotorBank ->
  wheels b !! 1%nat = Some l1 ->
  h !! l1 = Some w ->
  (forall x, x ∈ wheel_data w -> x = v) ->
  forall act h', is_active b h = (Ok act, h') ->
  act = (if v =? 1 then true else false).
Proof.
  intros Hc E1 Ew Hall act h'. unfold is_active. rewrite Hc.
  unfold MotorWheelSet_is_active. rewrite (py_getitem_1 _ _ E1).
  unfold bind at 1. unfold lift at 1. unfold bind.
  rewrite Wheel_get_current_value_unfold, Ew.
  destruct (py_getitem (wheel_data w) (current_position w)) as [x|e] eqn:Ex;
    [|done].
  apply py_getitem_elem, Hall in Ex. subst x. unfold ret. by intros [= <- _].
Qed.

Lemma machine_steps_constant_motor (m : LorenzMachine) (l1 : loc) (v : Z)
    (n : nat) :
  wheels (m_set m) !! 1%nat = Some l1 ->
  forall (h : heap) (w1 : Wheel),
  valid_machine m h = true ->
  h !! l1 = Some w1 ->
  (forall x, x ∈ wheel_data w1 -> x = v) ->
  exists hn,
    repeat_m n (LorenzMachine_advance m) h = (Ok tt, hn)
    /\ forall l w, l ∈ wheels (s_set m) -> h !! l = Some w ->
         hn !! l = Some (if v =? 1
                         then set_current_position w
                                ((current_position w + Z.of_nat n) mod wheel_size w)
                         else w).
Proof.
  intros E1. induction n as [|n IH]; intros h w1 Hv Ew Hall.
  - exists h. split; [done|]. intros l w Hl E.
    destruct (valid_machine_ref m h l Hv) as (w' & E' & Hw);
      [unfold machine_refs; solve_elem|].
    replace w' with w in Hw by congruence.
    rewrite set_current_position_valid_0 by done. by destruct (v =? 1).
  - pose proof (valid_machine_inv m h Hv) as (_ & _ & Cm & _).
    destruct (LorenzMachine_advance_spec m h Hv)
      as (h1 & h2 & act & h3 & A1 & A2 & A3 & _ & A & _ & S & Hstep).
    pose proof (valid_machine_preserved m h h3 Hv Hstep) as Hv3.
    destruct (keeps_wheels_advance (k_set m) h) as [_ Kk].
    destruct (Kk l1 w1 Ew) as (wa & Ea & _ & Da & _). rewrite A1 in Ea.
    destruct (keeps_wheels_advance (m_set m) h1) as [_ Km].
    destruct (Km l1 wa Ea) as (wb & Eb & _ & Db & _). rewrite A2 in Eb.
    simpl in Ea, Eb.
    assert (Hact : act = (if v =? 1 then true else false)).
    { refine (is_active_constant (m_set m) l1 h2 wb v Cm E1 Eb _ act h2 A3).
      intros x Hx. apply Hall. congruence. }
    assert (E3 : exists w3, h3 !! l1 = Some w3 /\ wheel_data w3 = wheel_data w1).
    { destruct (Hstep l1 w1 Ew) as [-> | ->]; eauto. }
    destruct E3 as (w3 & E3 & D3).
    destruct (IH h3 w3 Hv3 E3) as (hn & R & Sn).
    { intros x Hx. apply Hall. congruence. }
    exists hn. split.
    + simpl. by erewrite bind_ok by exact A.
    + intros l w Hl E. pose proof (S l w Hl E) as E'. rewrite Hact in E'.
      destruct (v =? 1).
      * rewrite (Sn l (advanced w) Hl E').
        by rewrite set_current_position_advanced.
      * by rewrite (Sn l w Hl E').
Qed.

Lemma forallb_eqb_all (v : Z) (data : list Z) :
  forallb (Z.eqb v) data = true -> forall x, x ∈ data -> x = v.
Proof.
  rewrite forallb_forall. intros H x Hx%list_elem_of_In.
  specialize (H x Hx). lia.
Qed.

(** X4.  A motor wheel 1 whose pattern is all zeros freezes the S-bank: from
    a valid state, however many steps the machine takes, every S wheel is
    exactly as it was. *)
Theorem X4_s_bank_frozen (m : LorenzMachine) (h : heap) (l1 : loc)
    (w1 : Wheel) (n : nat) :
  valid_machine m h = true ->
  wheels (m_set m) !! 1%nat = Some l1 ->
  h !! l1 = Some w1 ->
  all_zero (wheel_data w1) = true ->
  exists hn,
    repeat_m n (LorenzMachine_advance m) h = (Ok tt, hn)
    /\ forall l, l ∈ wheels (s_set m) -> hn !! l = h !! l.
Proof.
  intros Hv E1 Ew Hz.
  destruct (machine_steps_constant_motor m l1 0 n E1 h w1 Hv Ew
              (forallb_eqb_all 0 _ Hz)) as (hn & R & S).
  exists hn. split; [done|]. intros l Hl.
  destruct (valid_machine_ref m h l Hv) as (w & E & _);
    [unfold machine_refs; solve_elem|].
  rewrite E. by apply (S l w Hl E).
Qed.

Lemma X4_s_bank_frozen_witness :
  let h := [ mkWheel "k1" [1; 0] 2 0; mkWheel "s1" [0; 1; 1] 3 0;
             mkWheel "m1" [1; 0] 2 0; mkWheel "m2" [0; 0; 0] 3 0 ] in
  let m := mkLorenzMachine (mkWheelSet PlainBank [0%nat])
             (mkWheelSet PlainBank [1%nat]) (mkWheelSet MotorBank [2; 3]%nat) in
  exists hn,
    repeat_m 7 (LorenzMachine_advance m) h = (Ok tt, hn)
    /\ forall l, l ∈ [1%nat] -> hn !! l = h !! l.
Proof.
  intros h m.
  exact (X4_s_bank_frozen m h 3%nat (mkWheel "m2" [0; 0; 0] 3 0) 7
           eq_refl eq_refl eq_refl eq_refl).
Defined.

(** X5.  A motor wheel 1 whose pattern is all ones lets the S-bank move on
    every step: from a valid state, after n machine steps every S wheel is
    at (position + n) mod size, like the K wheels. *)
Theorem X5_s_bank_every_cycle (m : LorenzMachine) (h : heap) (l1 : loc)
    (w1 : Wheel) (n : nat) :
  valid_machine m h = true ->
  wheels (m_set m) !! 1%nat = Some l1 ->
  h !! l1 = Some w1 ->
  all_one (wheel_data w1) = true ->
  exists hn,
    repeat_m n (LorenzMachine_advance m) h = (Ok tt, hn)
    /\ forall l w, l ∈ wheels (s_set m) -> h !! l = Some w ->
         hn !! l = Some (set_current_position w
           ((current_position w + Z.of_nat n) mod wheel_size w)).
Proof.
  intros Hv E1 Ew Hz.
  exact (machine_steps_constant_motor m l1 1 n E1 h w1 Hv Ew
           (forallb_eqb_all 1 _ Hz)).
Qed.

Lemma X5_s_bank_every_cycle_witness :
  exists hn,
    repeat_m 3 (LorenzMachine_advance demo_machine) demo_heap = (Ok tt, hn)
    /\ hn !! 3%nat = Some (mkWheel "s2" [0; 1] 2 1).
Proof.
  destruct (X5_s_bank_every_cycle demo_machine demo_heap 5%nat
              (mkWheel "m2" [1; 1] 2 0) 3 eq_refl eq_refl eq_refl eq_refl)
    as (hn & R & S).
  exists hn. split; [exact R|].
  apply (S 3%nat (mkWheel "s2" [0; 1] 2 0)); [right; left|reflexivity].
Defined.

(** ** The keystream does not depend on the message *)

Lemma encrypt_character_keystream (m : LorenzMachine) (c : Z) (h : heap) :
  encrypt_character m c h =
  match encrypt_character m 0 h with
  | (Ok k, h') => (Ok (Z.lxor c k), h')
  | (Raise e, h') => (Raise e, h')
  end.
Proof.
  unfold encrypt_character, bind.
  destruct (get_current_value (k_set m) h) as [[k|e] h1]; [|done].
  destruct (get_current_value (s_set m) h1) as [[s|e] h2]; [|done].
  destruct (LorenzMachine_advance m h2) as [[[]|e] h3]; [|done].
  unfold ret. by rewrite Z.lxor_0_l, Z.lxor_assoc.
Qed.

Lemma encrypted_message_keystream (m : LorenzMachine) (message : list Z) :
  forall h,
  encrypted_message m message h =
  match encrypted_message m (replicate (length message) 0) h with
  | (Ok ks, h') => (Ok (zip_with Z.lxor message ks), h')
  | (Raise e, h') => (Raise e, h')
  end.
Proof.
  unfold encrypted_message.
  induction message as [|c cs IH]; intros h; [done|]. simpl.
  unfold bind at 1 3. rewrite (encrypt_character_keystream m c h).
  destruct (encrypt_character m 0 h) as [[k|e] h1]; [|done].
  unfold bind. rewrite (IH h1).
  by destruct (comprehension (encrypt_character m)
                 (replicate (length cs) 0) h1) as [[ks|e] h2].
Qed.

(** X6.  The keystream does not depend on the message: encrypting any
    message gives the message XORed, code by code, with what encrypting as
    many zeros gives from the same state; it raises where zeros would
    raise, and it leaves the heap that zeros would leave. *)
Theorem X6_keystream_is_encryption_of_zeros (m : LorenzMachine)
    (message : list Z) (h : heap) :
  encrypted_message m message h =
  match encrypted_message m (replicate (length message) 0) h with
  | (Ok ks, h') => (Ok (zip_with Z.lxor message ks), h')
  | (Raise e, h') => (Raise e, h')
  end.
Proof. apply encrypted_message_keystream. Qed.

Lemma zip_with_lxor_cancel (xs ys ks : list Z) :
  length xs = length ys -> length ks = length xs ->
  zip_with Z.lxor (zip_with Z.lxor xs ks) (zip_with Z.lxor ys ks)
  = zip_with Z.lxor xs ys.
Proof.
  revert ys ks. induction xs as [|x xs IH]; intros [|y ys] [|k ks]; try done.
  simpl. intros [= Hy] [= Hk]. rewrite IH by done. f_equal.
  rewrite (Z.lxor_comm y k), Z.lxor_assoc, <- (Z.lxor_assoc k k y).
  by rewrite Z.lxor_nilpotent, Z.lxor_0_l.
Qed.

(** X7.  Two messages of the same length encrypted from the same state
    (two messages in depth): the engine ends in the same state, and the XOR
    of the two outputs is the XOR of the two messages, the keystream having
    cancelled out. *)
Theorem X7_same_state_two_messages (m : LorenzMachine) (h : heap)
    (msg1 msg2 out1 out2 : list Z) (h1 h2 : heap) :
  length msg1 = length msg2 ->
  encrypted_message m msg1 h = (Ok out1, h1) ->
  encrypted_message m msg2 h = (Ok out2, h2) ->
  h1 = h2 /\ zip_with Z.lxor out1 out2 = zip_with Z.lxor msg1 msg2.
Proof.
  intros Hlen. rewrite (encrypted_message_keystream m msg1 h).
  rewrite (encrypted_message_keystream m msg2 h), <- Hlen.
  destruct (encrypted_message m (replicate (length msg1) 0) h)
    as [[ks|e] h'] eqn:E; [|done].
  intros [= <- <-] [= <- <-]. split; [done|].
  apply zip_with_lxor_cancel; [done|].
  rewrite (encrypted_message_length _ _ _ _ _ E). apply length_replicate.
Qed.

Lemma X7_same_state_two_messages_witness :
  zip_with Z.lxor [0; 2] [7; 8] = zip_with Z.lxor [0; 3] [7; 9].
Proof.
  exact (proj2 (X7_same_state_two_messages demo_machine demo_heap
                  [0; 3] [7; 9] [0; 2] [7; 8] _ _ eq_refl eq_refl eq_refl)).
Defined.

(** ** Encrypting in pieces *)

Lemma comprehension_app {A B} (f : A -> M B) (xs ys : list A) (h : heap) :
  comprehension f (xs ++ ys) h =
  bind (comprehension f xs)
       (fun a => bind (comprehension f ys) (fun b => ret (a ++ b)%list)) h.
Proof.
  revert h. induction xs as [|x xs IH]; intros h; simpl.
  - unfold bind, ret. destruct (comprehension f ys h) as [[b|e] h']; by simpl.
  - unfold bind, ret in *. destruct (f x h) as [[y|e] h1]; [|done].
    rewrite IH. destruct (comprehension f xs h1) as [[a|e] h2]; [|done].
    destruct (comprehension f ys h2) as [[b|e] h3]; by simpl.
Qed.

Lemma string_app_assoc (s1 s2 s3 : string) :
  ((s1 ++ s2) ++ s3 = s1 ++ (s2 ++ s3))%string.
Proof. induction s1 as [|c s1 IH]; simpl; [done|]. by rewrite IH. Qed.

Lemma py_join_app (xs ys : list string) :
  py_join (xs ++ ys) = (py_join xs ++ py_join ys)%string.
Proof.
  induction xs as [|x xs IH]; simpl; [done|].
  by rewrite IH, string_app_assoc.
Qed.

(** X8.  A message can be encrypted in pieces: encrypting [a] and then
    [b] on the state the first call left gives, once the second result's 0b
    prefix is dropped and the two are joined, exactly what encrypting
    [a ++ b] in one call gives, with the same final state. *)
Theorem X8_encrypt_in_pieces (m : LorenzMachine) (a b : list Z)
    (h h1 h2 : heap) (sa sb : string) :
  encrypt_message m a h = (Ok sa, h1) ->
  encrypt_message m b h1 = (Ok sb, h2) ->
  exists rest,
    sb = ("0b" ++ rest)%string
    /\ encrypt_message m (a ++ b) h = (Ok (sa ++ rest)%string, h2).
Proof.
  rewrite !encrypt_message_unfold. unfold encrypted_message.
  rewrite comprehension_app. unfold bind.
  destruct (comprehension (encrypt_character m) a h) as [[na|e] h1'];
    [|done].
  intros [= <- <-].
  destruct (comprehension (encrypt_character m) b h1') as [[nb|e] h2'];
    [|done].
  intros [= <- <-]. exists (py_join (map format_05b nb)). split; [done|].
  unfold ret. by rewrite map_app, py_join_app.
Qed.

Lemma X8_encrypt_in_pieces_witness :
  exists rest,
    "0b00010"%string = ("0b" ++ rest)%string
    /\ (encrypt_message demo_machine ([0] ++ [3]) demo_heap).1
       = Ok ("0b00000" ++ rest)%string.
Proof.
  destruct (X8_encrypt_in_pieces demo_machine [0] [3] demo_heap _ _
              "0b00000" "0b00010" eq_refl eq_refl) as (rest & E1 & E2).
  exists rest. split; [exact E1|]. by rewrite E2.
Defined.

(** ** Five-bit codes stay five-bit *)

Lemma lxor_below_pow2 (a b n : Z) :
  0 <= a < 2 ^ n -> 0 <= b < 2 ^ n -> 0 <= Z.lxor a b < 2 ^ n.
Proof.
  intros Ha Hb.
  assert (H0 : 0 <= Z.lxor a b) by (apply Z.lxor_nonneg; lia).
  split; [done|].
  destruct (Z.eq_dec (Z.lxor a b) 0) as [-> | Hx]; [lia|].
  destruct (Z.eq_dec a 0) as [-> | Ha0]; [rewrite Z.lxor_0_l; lia|].
  destruct (Z.eq_dec b 0) as [-> | Hb0]; [rewrite Z.lxor_0_r; lia|].
  assert (Hn : 0 <= n).
  { destruct (Z.le_gt_cases 0 n); [done|]. rewrite Z.pow_neg_r in Ha; lia. }
  apply Z.log2_lt_pow2; [lia|].
  pose proof (Z.log2_lxor a b (proj1 Ha) (proj1 Hb)).
  assert (Z.log2 a < n) by (apply Z.log2_lt_pow2; lia).
  assert (Z.log2 b < n) by (apply Z.log2_lt_pow2; lia).
  lia.
Qed.

Lemma string_length_app (s1 s2 : string) :
  String.length (s1 ++ s2) = (String.length s1 + String.length s2)%nat.
Proof. induction s1 as [|c s1 IH]; simpl; [done|]. by rewrite IH. Qed.

Lemma format_05b_five_bit (c : Z) :
  five_bit c = true -> String.length (format_05b c) = 5%nat.
Proof.
  unfold five_bit. intros H.
  assert (Hc : exists k : nat, (k < 32)%nat /\ c = Z.of_nat k).
  { exists (Z.to_nat c). lia. }
  destruct Hc as (k & Hk & ->). clear H.
  do 32 (destruct k as [|k]; [reflexivity|]). lia.
Qed.

Lemma py_join_five_bit (nums : list Z) :
  forallb five_bit nums = true ->
  String.length (py_join (map format_05b nums)) = (5 * length nums)%nat.
Proof.
  induction nums as [|c cs IH]; [done|]. simpl.
  intros [Hc Hcs]%andb_true_iff.
  rewrite string_length_app, format_05b_five_bit, IH by done. lia.
Qed.

Lemma get_current_value_range (h : heap) (ws : list loc) :
  ws <> [] -> valid_bank h ws = true ->
  exists v, WheelSet_get_current_value ws h = (Ok v, h)
            /\ 0 <= v < 2 ^ Z.of_nat (length ws).
Proof.
  intros Hne Hv.
  destruct (WheelSet_get_current_value_readable h ws Hne
              (valid_bank_readable _ _ Hv)) as (bits & HF & Hb & E).
  exists (spec_aggregate bits). split; [done|].
  rewrite (Forall2_length _ _ _ HF). by apply spec_aggregate_range.
Qed.

Lemma encrypt_character_five_bit (m : LorenzMachine) (h : heap) (c : Z) :
  valid_machine m h = true ->
  (length (wheels (k_set m)) <= 5)%nat ->
  (length (wheels (s_set m)) <= 5)%nat ->
  five_bit c = true ->
  exists r h',
    encrypt_character m c h = (Ok r, h')
    /\ five_bit r = true
    /\ valid_machine m h' = true.
Proof.
  intros Hv Lk Ls Hc.
  pose proof (valid_machine_inv m h Hv) as (_ & _ & _ & Nk & Ns & _).
  destruct (valid_machine_banks m h Hv) as [Vk Vs].
  destruct (get_current_value_range h _ Nk Vk) as (k & Ek & Rk).
  destruct (get_current_value_range h _ Ns Vs) as (s & Es & Rs).
  destruct (encrypt_character_spec m h c Hv)
    as (k' & s' & h' & Ek' & Es' & _ & _ & E & Hv').
  unfold get_current_value in Ek', Es'.
  replace k' with k in E by congruence.
  replace s' with s in E by congruence.
  exists (Z.lxor c (Z.lxor k s)), h'. split; [done|]. split; [|done].
  assert (P5 : forall n : nat, (n <= 5)%nat -> 2 ^ Z.of_nat n <= 2 ^ 5).
  { intros n Hn. apply Z.pow_le_mono_r; lia. }
  specialize (P5 _ Lk) as Pk. specialize (P5 _ Ls) as Ps.
  unfold five_bit in *.
  pose proof (lxor_below_pow2 k s 5 ltac:(lia) ltac:(lia)).
  pose proof (lxor_below_pow2 c (Z.lxor k s) 5 ltac:(lia) ltac:(lia)).
  lia.
Qed.

Lemma encrypted_message_five_bit (m : LorenzMachine) (message : list Z) :
  (length (wheels (k_set m)) <= 5)%nat ->
  (length (wheels (s_set m)) <= 5)%nat ->
  forallb five_bit message = true ->
  forall h, valid_machine m h = true ->
  exists nums h',
    encrypted_message m message h = (Ok nums, h')
    /\ forallb five_bit nums = true
    /\ length nums = length message.
Proof.
  intros Lk Ls. unfold encrypted_message.
  induction message as [|c cs IH]; intros Hm h Hv.
  - by exists [], h.
  - simpl in Hm. apply andb_true_iff in Hm as [Hc Hcs].
    destruct (encrypt_character_five_bit m h c Hv Lk Ls Hc)
      as (r & h1 & E & Hr & Hv1).
    destruct (IH Hcs h1 Hv1) as (rs & h2 & Ers & Hrs & Hlen).
    exists (r :: rs), h2. split; [|split].
    + simpl. erewrite bind_ok by exact E. by erewrite bind_ok by exact Ers.
    + simpl. by rewrite Hr, Hrs.
    + simpl. by rewrite Hlen.
Qed.

(** X9.  On a valid machine whose K and S banks have at most five wheels,
    five-bit codes (0 to 31) encrypt to five-bit codes, and the string
    [encrypt_message] returns has exactly 2 + 5 * len(message) characters:
    the 0b prefix and five binary digits for each code. *)
Theorem X9_five_bit_codes (m : LorenzMachine) (message : list Z) (h : heap) :
  valid_machine m h = true ->
  (length (wheels (k_set m)) <= 5)%nat ->
  (length (wheels (s_set m)) <= 5)%nat ->
  forallb five_bit message = true ->
  exists nums out h',
    encrypted_message m message h = (Ok nums, h')
    /\ forallb five_bit nums = true
    /\ encrypt_message m message h = (Ok out, h')
    /\ String.length out = (2 + 5 * length message)%nat.
Proof.
  intros Hv Lk Ls Hm.
  destruct (encrypted_message_five_bit m message Lk Ls Hm h Hv)
    as (nums & h' & E & Hn & Hlen).
  exists nums, ("0b" ++ py_join (map format_05b nums))%string, h'.
  split; [done|]. split; [done|]. split.
  - by rewrite encrypt_message_unfold, E.
  - simpl. rewrite py_join_five_bit by done. by rewrite Hlen.
Qed.

Lemma X9_five_bit_codes_witness :
  exists nums out h',
    encrypted_message demo_machine [0; 3] demo_heap = (Ok nums, h')
    /\ forallb five_bit nums = true
    /\ encrypt_message demo_machine [0; 3] demo_heap = (Ok out, h')
    /\ String.length out = 12%nat.
Proof.
  exact (X9_five_bit_codes demo_machine [0; 3] demo_heap eq_refl
           ltac:(simpl; lia) ltac:(simpl; lia) eq_refl).
Defined.

(** ** Exceptions part-way *)

Lemma for_each_app {A} (f : A -> M unit) (xs ys : list A) (h : heap) :
  for_each f (xs ++ ys) h = bind (for_each f xs) (fun _ => for_each f ys) h.
Proof.
  revert h. induction xs as [|x xs IH]; intros h; simpl; [done|].
  unfold bind in *. destruct (f x h) as [[[]|e] h1]; [|done]. by rewrite IH.
Qed.

(** X10.  An exception does not undo what the bank has done.  When a bank
    holds a wheel of size 0 after wheels that can advance, [advance] raises
    ZeroDivisionError and the wheels in front of it have already moved by
    one position: the heap is the one advancing that front part alone
    leaves. *)
Theorem X10_advance_fails_part_way (pre post : list loc) (l : loc)
    (w : Wheel) (h : heap) :
  NoDup pre ->
  l ∉ pre ->
  valid_bank h pre = true ->
  h !! l = Some w ->
  wheel_size w = 0 ->
  exists h',
    WheelSet_advance pre h = (Ok tt, h')
    /\ WheelSet_advance (pre ++ l :: post) h = (Raise ZeroDivisionError, h')
    /\ (forall l' w', l' ∈ pre -> h !! l' = Some w' ->
          h' !! l' = Some (advanced w'))
    /\ h' !! l = Some w.
Proof.
  intros Hnd Hl Hv E Hs.
  destruct (WheelSet_advance_spec pre h Hnd (valid_bank_sizes h pre Hv))
    as (h' & A & _ & Hin & Hout).
  exists h'. split; [done|]. split; [|split; [done|]].
  - unfold WheelSet_advance in *. rewrite for_each_app.
    erewrite bind_ok by exact A. simpl. unfold bind.
    rewrite Wheel_advance_unfold, Hout, E, Hs by done. done.
  - by rewrite Hout.
Qed.

Lemma X10_advance_fails_part_way_witness :
  let h := [mkWheel "a" [1; 0] 2 0; mkWheel "b" [] 0 0; mkWheel "c" [1] 1 0] in
  WheelSet_advance [0; 1; 2]%nat h
  = (Raise ZeroDivisionError,
     [mkWheel "a" [1; 0] 2 1; mkWheel "b" [] 0 0; mkWheel "c" [1] 1 0]).
Proof.
  intros h.
  destruct (X10_advance_fails_part_way [0%nat] [2%nat] 1%nat
              (mkWheel "b" [] 0 0) h) as (h' & A & B & _);
    [apply (bool_decide_eq_true_1 (NoDup [0%nat])); reflexivity
    |apply (bool_decide_eq_true_1 (1%nat ∉ [0%nat])); reflexivity
    |reflexivity|reflexivity|reflexivity|].
  injection A as <-. exact B.
Defined.

(** ** Motor banks with fewer than two wheels *)

(** X11.  A [MotorWheelSet] built with fewer than two wheels fails with
    IndexError, but not always at once: [is_active] always raises; [advance]
    raises on an empty bank; on a one-wheel bank [advance] first moves that
    wheel and then raises only if the bit it now shows is 1, and returns
    normally otherwise. *)
Theorem X11_motor_bank_too_small (l0 : loc) (w0 : Wheel) (b : Z) (h : heap) :
  h !! l0 = Some w0 ->
  wheel_size w0 <> 0 ->
  py_getitem (wheel_data w0) (current_position (advanced w0)) = Ok b ->
  MotorWheelSet_is_active [] h = (Raise IndexError, h)
  /\ MotorWheelSet_is_active [l0] h = (Raise IndexError, h)
  /\ MotorWheelSet_advance [] h = (Raise IndexError, h)
  /\ MotorWheelSet_advance [l0] h
     = (if b =? 1 then Raise IndexError else Ok tt, <[l0 := advanced w0]> h).
Proof.
  intros E Hs Hb. do 3 (split; [done|]).
  unfold MotorWheelSet_advance.
  change (py_getitem [l0] 0) with (Ok (A:=nat) l0).
  unfold bind at 1. unfold lift at 1. unfold bind at 1.
  rewrite (Wheel_advance_eq l0 h w0 E Hs).
  unfold bind at 1. unfold lift at 1. unfold bind at 1.
  rewrite Wheel_get_current_value_unfold.
  rewrite list_lookup_insert_eq by (by eapply lookup_lt_Some).
  change (wheel_data (advanced w0)) with (wheel_data w0). rewrite Hb.
  by destruct (b =? 1).
Qed.

Lemma X11_motor_bank_too_small_witness :
  MotorWheelSet_advance [4%nat] demo_heap
  = (Ok tt, <[4%nat := mkWheel "m1" [1; 0] 2 1]> demo_heap)
  /\ MotorWheelSet_advance [5%nat] demo_heap
  = (Raise IndexError, <[5%nat := mkWheel "m2" [1; 1] 2 1]> demo_heap).
Proof.
  split.
  - exact (proj2 (proj2 (proj2 (X11_motor_bank_too_small 4%nat
             (mkWheel "m1" [1; 0] 2 0) 0 demo_heap eq_refl
             ltac:(discriminate) eq_refl)))).
  - exact (proj2 (proj2 (proj2 (X11_motor_bank_too_small 5%nat
             (mkWheel "m2" [1; 1] 2 0) 1 demo_heap eq_refl
             ltac:(discriminate) eq_refl)))).
Defined.

(** ** Values that are not bits, positions that are not indices *)

Lemma bin_digits_app (s1 s2 : string) (acc : Z) :
  bin_digits (s1 ++ s2) acc =
  match bin_digits s1 acc with
  | Some a => bin_digits s2 a
  | None => None
  end.
Proof.
  revert acc. induction s1 as [|c s1 IH]; intros acc; simpl; [done|].
  destruct (Ascii.eqb c "0"); [apply IH|].
  destruct (Ascii.eqb c "1"); [apply IH|done].
Qed.

Lemma bin_digits_not_binary (s : string) (acc : Z) :
  binary_string s = false -> bin_digits s acc = None.
Proof.
  revert acc. induction s as [|c s IH]; intros acc; simpl; [done|].
  destruct (Ascii.eqb c "0"); [apply IH|].
  destruct (Ascii.eqb c "1"); [apply IH|done].
Qed.

Lemma py_int_0b_not_binary (pre post : list Z) (v : Z) :
  binary_string (py_str v) = false ->
  py_int_0b (py_join (map py_str (pre ++ v :: post))) = Raise ValueError.
Proof.
  intros Hv. unfold py_int_0b.
  assert (E : bin_digits (py_join (map py_str (pre ++ v :: post))) 0 = None).
  { rewrite map_app, py_join_app.
    change (py_join (map py_str (v :: post)))
      with (py_str v ++ py_join (map py_str post))%string.
    rewrite !bin_digits_app.
    destruct (bin_digits (py_join (map py_str pre)) 0); [|done].
    by rewrite bin_digits_app, (bin_digits_not_binary _ _ Hv). }
  rewrite E. by destruct (py_join _).
Qed.

(** X12.  A pattern value that is not a bit is caught only when it is
    read, and only if its decimal form has a character other than 0 and 1
    (2, 7, -1, 12, ...): if the wheels of a bank can all be read and one of
    the current values is such a number, [get_current_value] raises
    ValueError and leaves the heap as it was. *)
Theorem X12_non_bit_value (ws : list loc) (h h' : heap) (vs : list Z) (v : Z) :
  comprehension Wheel_get_current_value ws h = (Ok vs, h') ->
  v ∈ vs ->
  binary_string (py_str v) = false ->
  WheelSet_get_current_value ws h = (Raise ValueError, h) /\ h' = h.
Proof.
  intros E Hv Hbad.
  assert (Hh : h' = h).
  { pose proof (comprehension_pure Wheel_get_current_value ws h
                  (fun l => Wheel_get_current_value_pure l h)) as P.
    by rewrite E in P. }
  subst h'. split; [|done].
  unfold WheelSet_get_current_value. erewrite bind_ok by exact E.
  unfold lift. f_equal.
  assert (Hr : v ∈ rev vs).
  { apply list_elem_of_In, in_rev. rewrite rev_involutive.
    by apply list_elem_of_In. }
  apply list_elem_of_split in Hr as (pre & post & ->).
  by apply py_int_0b_not_binary.
Qed.

Lemma X12_non_bit_value_witness :
  let h := [mkWheel "a" [1; 0] 2 0; mkWheel "b" [0; 2] 2 1] in
  WheelSet_get_current_value [0; 1]%nat h = (Raise ValueError, h).
Proof.
  intros h.
  apply (X12_non_bit_value [0; 1]%nat h h [1; 2] 2 eq_refl); [|reflexivity].
  right; left.
Defined.

Lemma py_getitem_out_of_range {A} (xs : list A) (i : Z) :
  ~ (- Z.of_nat (length xs) <= i < Z.of_nat (length xs)) ->
  py_getitem xs i = Raise IndexError.
Proof.
  intros Hi. unfold py_getitem.
  set (j := if i <? 0 then i + Z.of_nat (length xs) else i).
  destruct (Z.ltb_spec j 0); [done|].
  destruct (xs !! Z.to_nat j) as [x|] eqn:E; [|done].
  apply lookup_lt_Some in E. unfold j in *.
  destruct (Z.ltb_spec i 0); lia.
Qed.

(** X13.  A position outside the pattern stops the machine before it
    moves.  If a K wheel, reached after K wheels that can be read, has a
    position that does not index its pattern, then [encrypt_character], and
    so [encrypt_message] on any non-empty message, raises IndexError with
    the heap untouched: the read comes before the advance that would have
    brought the position back into range. *)
Theorem X13_position_out_of_range (m : LorenzMachine) (pre post : list loc)
    (l : loc) (w : Wheel) (h : heap) (c : Z) (cs : list Z) :
  wheels (k_set m) = (pre ++ l :: post)%list ->
  readable_bank h pre = true ->
  h !! l = Some w ->
  ~ (- Z.of_nat (length (wheel_data w)) <= current_position w
     < Z.of_nat (length (wheel_data w))) ->
  Wheel_get_current_value l h = (Raise IndexError, h)
  /\ encrypt_character m c h = (Raise IndexError, h)
  /\ encrypt_message m (c :: cs) h = (Raise IndexError, h).
Proof.
  intros Ek Hpre E Hp.
  assert (G : Wheel_get_current_value l h = (Raise IndexError, h)).
  { by rewrite Wheel_get_current_value_unfold, E, py_getitem_out_of_range. }
  assert (C : encrypt_character m c h = (Raise IndexError, h)).
  { unfold encrypt_character, get_current_value, WheelSet_get_current_value.
    rewrite Ek. unfold bind at 1. unfold bind at 1.
    rewrite comprehension_app.
    destruct (comprehension_bits h pre Hpre) as (bits & Eb & _).
    erewrite bind_ok by exact Eb. simpl. unfold bind at 1. unfold bind at 1.
    by rewrite G. }
  split; [done|]. split; [done|].
  rewrite encrypt_message_unfold. unfold encrypted_message. simpl.
  unfold bind at 1. by rewrite C.
Qed.

Lemma X13_position_out_of_range_witness :
  let h := [ mkWheel "k1" [1; 0; 1] 3 3; mkWheel "s1" [1; 1] 2 0;
             mkWheel "m1" [1; 0] 2 0; mkWheel "m2" [1; 1] 2 0 ] in
  let m := mkLorenzMachine (mkWheelSet PlainBank [0%nat])
             (mkWheelSet PlainBank [1%nat]) (mkWheelSet MotorBank [2; 3]%nat) in
  encrypt_message m [0; 3] h = (Raise IndexError, h).
Proof.
  intros h m.
  exact (proj2 (proj2 (X13_position_out_of_range m [] [] 0%nat
           (mkWheel "k1" [1; 0; 1] 3 3) h 0 [3] eq_refl eq_refl eq_refl
           ltac:(simpl; lia)))).
Defined.

(** ** The same wheels in both banks *)

(** X14.  A machine given the same tuple of wheels as K-bank and as S-bank
    does not encrypt at all: both banks show the same value, the keystream is
    0, and whenever the run returns, the output is the message itself. *)
Theorem X14_same_wheels_in_k_and_s (m : LorenzMachine) (message out : list Z)
    (h h' : heap) :
  wheels (k_set m) = wheels (s_set m) ->
  encrypted_message m message h = (Ok out, h') ->
  out = message.
Proof.
  intros Hks. unfold encrypted_message. revert h out.
  induction message as [|c cs IH]; intros h out; simpl.
  - unfold ret. by intros [= <- _].
  - unfold bind at 1.
    destruct (encrypt_character m c h) as [[r|e] h1] eqn:E1; [|done].
    unfold bind at 1.
    destruct (comprehension (encrypt_character m) cs h1) as [[rs|e] h2] eqn:E2;
      [|done].
    unfold ret. intros [= <- <-]. f_equal; [|by eapply IH].
    revert E1. unfold encrypt_character, get_current_value, bind.
    rewrite <- Hks.
    pose proof (WheelSet_get_current_value_pure (wheels (k_set m)) h) as P.
    destruct (WheelSet_get_current_value (wheels (k_set m)) h) as [[k|e] hk]
      eqn:Ek; [|done].
    simpl in P. subst hk. rewrite Ek.
    destruct (LorenzMachine_advance m h) as [[[]|e] h3]; [|done].
    unfold ret. intros [= <- _].
    by rewrite Z.lxor_assoc, Z.lxor_nilpotent, Z.lxor_0_r.
Qed.

Lemma X14_same_wheels_in_k_and_s_witness :
  let m := mkLorenzMachine (mkWheelSet PlainBank [0; 1]%nat)
             (mkWheelSet PlainBank [0; 1]%nat) (mkWheelSet MotorBank [4; 5]%nat) in
  exists out h',
    encrypted_message m [5; 9; 17] demo_heap = (Ok out, h')
    /\ out = [5; 9; 17].
Proof.
  intros m. eexists _, _. split; [reflexivity|].
  exact (X14_same_wheels_in_k_and_s m [5; 9; 17] _ demo_heap _ eq_refl eq_refl).
Defined.

(** ** Which wheel gives which bit *)

Lemma spec_aggregate_testbit (bits : list Z) :
  forallb is_bit bits = true ->
  forall (i : nat) (b : Z), bits !! i = Some b ->
  Z.testbit (spec_aggregate bits) (Z.of_nat i) = (b =? 1).
Proof.
  induction bits as [|b0 bs IH]; intros Hb i b Hi; [by destruct i|].
  simpl in Hb. apply andb_true_iff in Hb as [Hb0 Hbs].
  simpl spec_aggregate. destruct i as [|i].
  - injection Hi as <-. change (Z.of_nat 0) with 0.
    destruct (is_bit_cases _ Hb0) as [-> | ->].
    + rewrite Z.add_0_l. apply Z.testbit_even_0.
    + rewrite Z.add_comm. apply Z.testbit_odd_0.
  - rewrite Nat2Z.inj_succ. simpl in Hi.
    destruct (is_bit_cases _ Hb0) as [-> | ->].
    + rewrite Z.add_0_l, Z.testbit_even_succ by lia. by apply IH.
    + rewrite Z.add_comm, Z.testbit_odd_succ by lia. by apply IH.
Qed.

(** X15.  In the value of a bank each wheel owns one binary digit: for a
    bank of readable wheels, bit i of [get_current_value] is set exactly
    when the current value of wheel i is 1. *)
Theorem X15_wheel_i_is_bit_i (ws : list loc) (h : heap) (i : nat) (l : loc) :
  readable_bank h ws = true ->
  ws !! i = Some l ->
  exists v b,
    WheelSet_get_current_value ws h = (Ok v, h)
    /\ Wheel_get_current_value l h = (Ok b, h)
    /\ Z.testbit v (Z.of_nat i) = (b =? 1).
Proof.
  intros Hr Hi.
  assert (Hne : ws <> []) by (intros ->; by destruct i).
  destruct (WheelSet_get_current_value_readable h ws Hne Hr)
    as (bits & HF & Hb & E).
  destruct (Forall2_lookup_l _ _ _ _ _ HF Hi) as (b & Eb & G).
  exists (spec_aggregate bits), b. split; [done|]. split; [done|].
  by apply spec_aggregate_testbit.
Qed.

Lemma X15_wheel_i_is_bit_i_witness :
  exists v b,
    WheelSet_get_current_value [2; 3]%nat demo_heap = (Ok v, demo_heap)
    /\ Wheel_get_current_value 3%nat demo_heap = (Ok b, demo_heap)
    /\ Z.testbit v (Z.of_nat 1) = (b =? 1).
Proof.
  exact (X15_wheel_i_is_bit_i [2; 3]%nat demo_heap 1 3%nat eq_refl eq_refl).
Defined.

(** ** The bit count of the script *)

Lemma difference_step_raise (enc bau : string) (e : exn) (idx : list Z) :
  fold_left (difference_step enc bau) idx (Raise e) = Raise e.
Proof. by induction idx. Qed.

Lemma string_length_list (s : string) :
  length (list_ascii_of_string s) = String.length s.
Proof. induction s as [|c s IH]; simpl; [done|]. by rewrite IH. Qed.

Lemma py_getitem_nat {A} (xs : list A) (k : nat) :
  py_getitem xs (Z.of_nat k) =
  match xs !! k with Some x => Ok x | None => Raise IndexError end.
Proof.
  unfold py_getitem.
  destruct (Z.ltb_spec (Z.of_nat k) 0); [lia|].
  destruct (Z.ltb_spec (Z.of_nat k) 0); [lia|].
  by rewrite Nat2Z.id.
Qed.

Lemma difference_loop (enc bau : string) (n : nat) :
  forall (k : nat) (d : Z),
  let X := list_ascii_of_string (py_slice_from_2 enc) in
  let Y := list_ascii_of_string (py_slice_from_2 bau) in
  (k + n = length X)%nat ->
  (length X <= length Y)%nat ->
  fold_left (difference_step enc bau) (map Z.of_nat (seq k n)) (Ok d)
  = Ok (d + agreeing (drop k X) (drop k Y)).
Proof.
  induction n as [|n IH]; intros k d X Y Hk Hlen.
  - simpl. rewrite (drop_ge X) by lia. simpl. f_equal. lia.
  - simpl. unfold py_str_getitem. fold X. fold Y. rewrite !py_getitem_nat.
    destruct (X !! k) as [x|] eqn:Ex; [|apply lookup_ge_None in Ex; lia].
    destruct (Y !! k) as [y|] eqn:Ey; [|apply lookup_ge_None in Ey; lia].
    rewrite (IH (S k)) by (fold X; fold Y; lia). fold X. fold Y.
    rewrite (drop_S X x k Ex), (drop_S Y y k Ey). simpl. f_equal. lia.
Qed.

Lemma agreeing_same (xs : list ascii) : agreeing xs xs = Z.of_nat (length xs).
Proof.
  induction xs as [|x xs IH]; [done|].
  simpl agreeing. rewrite Ascii.eqb_refl, IH. simpl length. lia.
Qed.

Lemma agreeing_range (xs ys : list ascii) :
  0 <= agreeing xs ys <= Z.of_nat (length xs).
Proof.
  revert ys. induction xs as [|x xs IH]; intros [|y ys]; simpl agreeing;
    simpl length; try lia.
  specialize (IH ys). destruct (Ascii.eqb x y); lia.
Qed.

Lemma main_difference_agreeing (enc bau : string) :
  (String.length (py_slice_from_2 enc) <= String.length (py_slice_from_2 bau))%nat ->
  main_difference enc bau
    = Ok (agreeing (list_ascii_of_string (py_slice_from_2 enc))
                   (list_ascii_of_string (py_slice_from_2 bau))).
Proof.
  intros Hlen. unfold main_difference.
  rewrite (difference_loop enc bau _ 0 0);
    rewrite ?string_length_list; [done|done|lia].
Qed.

(** X16.  What the script calls [difference] counts the positions at which
    the encrypted bit string and the Baudot bit string AGREE, not those at
    which they differ: when the Baudot string is at least as long as the
    encrypted one, the loop returns the number of agreeing positions (after
    the 0b prefixes), between 0 and the number of bits; in particular a
    text that encryption left wholly unchanged scores every bit. *)
Theorem X16_difference_counts_agreement (enc bau : string) :
  (String.length (py_slice_from_2 enc) <= String.length (py_slice_from_2 bau))%nat ->
  main_difference enc bau
    = Ok (agreeing (list_ascii_of_string (py_slice_from_2 enc))
                   (list_ascii_of_string (py_slice_from_2 bau)))
  /\ 0 <= agreeing (list_ascii_of_string (py_slice_from_2 enc))
                   (list_ascii_of_string (py_slice_from_2 bau))
       <= Z.of_nat (String.length (py_slice_from_2 enc))
  /\ main_difference enc enc
    = Ok (Z.of_nat (String.length (py_slice_from_2 enc))).
Proof.
  intros Hlen. split; [|split].
  - by apply main_difference_agreeing.
  - rewrite <- string_length_list. apply agreeing_range.
  - rewrite main_difference_agreeing by done.
    by rewrite agreeing_same, string_length_list.
Qed.

Lemma X16_difference_counts_agreement_witness :
  main_difference "0b0000000010" "0b0000000011" = Ok 9.
Proof.
  exact (proj1 (X16_difference_counts_agreement "0b0000000010" "0b0000000011"
                  ltac:(simpl; lia))).
Defined.

Lemma difference_loop_short (enc bau : string) (n : nat) :
  forall (k : nat) (d : Z),
  let X := list_ascii_of_string (py_slice_from_2 enc) in
  let Y := list_ascii_of_string (py_slice_from_2 bau) in
  (k + n = length X)%nat ->
  (k <= length Y < length X)%nat ->
  fold_left (difference_step enc bau) (map Z.of_nat (seq k n)) (Ok d)
  = Raise IndexError.
Proof.
  induction n as [|n IH]; intros k d X Y Hk Hlen; [lia|].
  simpl. unfold py_str_getitem. fold X. fold Y. rewrite !py_getitem_nat.
  destruct (X !! k) as [x|] eqn:Ex; [|apply lookup_ge_None in Ex; lia].
  destruct (Y !! k) as [y|] eqn:Ey.
  - apply lookup_lt_Some in Ey. apply IH; fold X; fold Y; lia.
  - apply difference_step_raise.
Qed.

(** X17.  When the Baudot bit string is shorter than the encrypted one
    (a code outside 0..31 made some rendering longer than five digits), the
    counting loop runs off its end and raises IndexError. *)
Theorem X17_difference_index_error (enc bau : string) :
  (String.length (py_slice_from_2 bau) < String.length (py_slice_from_2 enc))%nat ->
  main_difference enc bau = Raise IndexError.
Proof.
  intros Hlen. unfold main_difference.
  apply (difference_loop_short enc bau _ 0 0);
    rewrite ?string_length_list; lia.
Qed.

Lemma X17_difference_index_error_witness :
  main_difference "0b100000" "0b00001" = Raise IndexError.
Proof.
  exact (X17_difference_index_error "0b100000" "0b00001" ltac:(simpl; lia)).
Defined.

(** X18.  With five-bit codes on a valid machine with at most five wheels
    in the K and S banks, the script's loop always completes: the encrypted
    string and the Baudot string have the same length, and the count lies
    between 0 and 5 * len(message). *)
Theorem X18_script_count_in_range (m : LorenzMachine) (message : list Z)
    (h : heap) :
  valid_machine m h = true ->
  (length (wheels (k_set m)) <= 5)%nat ->
  (length (wheels (s_set m)) <= 5)%nat ->
  forallb five_bit message = true ->
  exists out h' d,
    encrypt_message m message h = (Ok out, h')
    /\ String.length out = String.length (baudot_text_binary message)
    /\ main_difference out (baudot_text_binary message) = Ok d
    /\ 0 <= d <= 5 * Z.of_nat (length message).
Proof.
  intros Hv Lk Ls Hm.
  destruct (encrypted_message_five_bit m message Lk Ls Hm h Hv)
    as (nums & h' & E & Hn & Hlen).
  set (out := ("0b" ++ py_join (map format_05b nums))%string).
  assert (L1 : String.length (py_slice_from_2 out) = (5 * length message)%nat).
  { unfold out. simpl. rewrite py_join_five_bit by done. by rewrite Hlen. }
  assert (L2 : String.length (py_slice_from_2 (baudot_text_binary message))
               = (5 * length message)%nat).
  { unfold baudot_text_binary. simpl. by rewrite py_join_five_bit. }
  pose proof (main_difference_agreeing out (baudot_text_binary message)
                ltac:(lia)) as D.
  pose proof (agreeing_range (list_ascii_of_string (py_slice_from_2 out))
    (list_ascii_of_string (py_slice_from_2 (baudot_text_binary message)))) as R.
  rewrite string_length_list, L1 in R.
  exists out, h', (agreeing (list_ascii_of_string (py_slice_from_2 out))
    (list_ascii_of_string (py_slice_from_2 (baudot_text_binary message)))).
  split; [by rewrite encrypt_message_unfold, E|].
  split; [|split; [done|lia]].
  unfold out, baudot_text_binary. simpl.
  rewrite !py_join_five_bit by done. by rewrite Hlen.
Qed.

Lemma X18_script_count_in_range_witness :
  exists out h' d,
    encrypt_message demo_machine [0; 3] demo_heap = (Ok out, h')
    /\ String.length out = String.length (baudot_text_binary [0; 3])
    /\ main_difference out (baudot_text_binary [0; 3]) = Ok d
    /\ 0 <= d <= 5 * Z.of_nat 2.
Proof.
  exact (X18_script_count_in_range demo_machine [0; 3] demo_heap eq_refl
           ltac:(simpl; lia) ltac:(simpl; lia) eq_refl).
Defined.

(** ** The configuration string of a wheel *)













(** ** A wheel of negative size *)

Lemma py_getitem_neg_mod {A} (xs : list A) (a : Z) :
  xs <> [] ->
  py_getitem xs (a mod - Z.of_nat (length xs))
  = py_getitem xs (a mod Z.of_nat (length xs)).
Proof.
  intros Hne. set (N := Z.of_nat (length xs)).
  assert (HN : 0 < N) by (unfold N; destruct xs; [done|simpl; lia]).
  pose proof (Z.mod_pos_bound a N HN) as Hb.
  destruct (Z.eq_dec (a mod N) 0) as [Hz|Hnz].
  - rewrite (Z.mod_opp_r_z a N) by lia. by rewrite Hz.
  - rewrite (Z.mod_opp_r_nz a N) by lia.
    unfold py_getitem. fold N.
    destruct (Z.ltb_spec (a mod N - N) 0); [|lia].
    destruct (Z.ltb_spec (a mod N) 0); [lia|].
    by replace (a mod N - N + N) with (a mod N) by lia.
Qed.

(** X20.  A negative size is not caught and does no harm: a wheel whose
    size is minus the length of its (non-empty) pattern advances without
    error, its position running through non-positive values, and after n >= 1
    advances it shows the very value a wheel of the positive size would show,
    the one at index (position + n) mod length. *)
Theorem X20_negative_size (l : loc) (w : Wheel) (h : heap) (n : nat) :
  h !! l = Some w ->
  wheel_data w <> [] ->
  wheel_size w = - Z.of_nat (length (wheel_data w)) ->
  (1 <= n)%nat ->
  exists hn wn,
    repeat_m n (Wheel_advance l) h = (Ok tt, hn)
    /\ hn !! l = Some wn
    /\ wheel_size w < current_position wn <= 0
    /\ (Wheel_get_current_value l hn).1
       = py_getitem (wheel_data w)
           ((current_position w + Z.of_nat n)
              mod Z.of_nat (length (wheel_data w))).
Proof.
  intros E Hne Hs Hn.
  assert (HN : 0 < Z.of_nat (length (wheel_data w))).
  { destruct (wheel_data w); [done|simpl; lia]. }
  eexists _, _. split; [apply (Wheel_advance_repeat l w); (done || lia)|].
  assert (Hlt : (l < length h)%nat) by (by eapply lookup_lt_Some).
  split; [by apply list_lookup_insert_eq|]. split.
  - cbn. apply Z.mod_neg_bound. lia.
  - rewrite Wheel_get_current_value_unfold, list_lookup_insert_eq by done.
    cbn. rewrite Hs. by apply py_getitem_neg_mod.
Qed.

Lemma X20_negative_size_witness :
  exists hn wn,
    repeat_m 4 (Wheel_advance 0%nat) [mkWheel "w" [1; 0; 0] (-3) 0] = (Ok tt, hn)
    /\ hn !! 0%nat = Some wn
    /\ -3 < current_position wn <= 0
    /\ (Wheel_get_current_value 0%nat hn).1 = Ok 0.
Proof.
  exact (X20_negative_size 0%nat (mkWheel "w" [1; 0; 0] (-3) 0)
           [mkWheel "w" [1; 0; 0] (-3) 0] 4 eq_refl ltac:(discriminate)
           eq_refl ltac:(lia)).
Defined.
